(** * lia/tree.py: the LDAP tree index

    A shallow embedding of [lia/tree.py] (classes [NodeNotEmptyError],
    [TreePetrifiedError], [LdapNode], [LdapTree]) and the properties of the
    insert-then-petrify life cycle.

    Python objects live in an explicit object store: an [LdapNode] object is
    an address into the list [heap], attribute reads and writes are list
    lookups and updates, and Python sets of nodes (hashed by identity) are
    finite sets of addresses. Exceptions leave the store as mutated so far,
    so every operation returns its outcome together with the store. *)

From Stdlib Require Import Ascii.
From stdpp Require Import gmap strings list sorting.

(** ** Python values the module handles *)

(** A reference to an object: its address in the store. *)
Abbreviation addr := nat (only parsing).

(** The exceptions the module can let escape. [NodeNotEmptyError] carries
    its attribute [dn]. [TypeError] and [AttributeError] are the built-in
    ones; [LDAPInvalidDnError] stands for whatever ldap3's [parse_dn]
    raises on a malformed name. *)
Inductive exn :=
  | TreePetrifiedError
  | NodeNotEmptyError (dn : string)
  | TypeError
  | AttributeError
  | LDAPInvalidDnError.

Inductive result (A : Type) :=
  | Ok (a : A)
  | Raise (e : exn).
Arguments Ok {A} a.
Arguments Raise {A} e.

(** What a call hands back to Python code: [None] or a node object. *)
Inductive pyvalue :=
  | PyNone
  | PyNodeRef (a : addr).

(** The two sequence objects [_dn_to_path] deals in: a list of strings and
    the one-shot iterator [reversed(list)] builds ([remaining] is what it
    has yet to yield, in yielding order). *)
Inductive pyseq :=
  | PyList (items : list string)
  | PyListReverseIterator (remaining : list string).

(** Built-in [reversed]: a list is reversible, a [list_reverseiterator]
    has neither [__reversed__] nor the sequence protocol. *)
Definition reversed (o : pyseq) : result pyseq :=
  match o with
  | PyList items => Ok (PyListReverseIterator (rev items))
  | PyListReverseIterator _ => Raise TypeError
  end.

(** Iterating to exhaustion ([for name in o], [str.join(o)]): the items
    yielded and the object afterwards. *)
Definition drain (o : pyseq) : list string * pyseq :=
  match o with
  | PyList items => (items, PyList items)
  | PyListReverseIterator remaining => (remaining, PyListReverseIterator [])
  end.

(** The payload object handed to [add_node]: all the module uses of it is
    the attribute [dn] and its truth value ([if node.data:]); [ident]
    tells payloads apart. *)
Record Entry := mkEntry {
  dn : string;
  truth : bool;
  ident : nat
}.

Global Instance Entry_eq_dec : EqDecision Entry.
Proof. solve_decision. Defined.

(** Truth value of the attribute [data]: [None] is false. *)
Definition py_bool (o : option Entry) : bool :=
  match o with
  | None => false
  | Some d => truth d
  end.

(** ** Order on strings, and [sorted] *)

Definition string_le (s1 s2 : string) : Prop := String.leb s1 s2 = true.

Global Instance string_le_dec : RelDecision string_le.
Proof. intros s1 s2. unfold string_le. apply _. Defined.

(** Built-in [sorted] on a list of [str]. *)
Definition sorted (l : list string) : list string := merge_sort string_le l.

(** ** class NodeNotEmptyError *)

(** [__init__]: [self.dn = ",".join(reversed(path))]. *)
Definition NodeNotEmptyError__init__ (path : pyseq) : result exn :=
  match reversed path with
  | Raise e => Raise e
  | Ok it => Ok (NodeNotEmptyError (String.concat "," (fst (drain it))))
  end.

(** [raise NodeNotEmptyError(path)]: the exception that propagates. *)
Definition raise_NodeNotEmptyError (path : pyseq) : exn :=
  match NodeNotEmptyError__init__ path with
  | Raise e => e
  | Ok e => e
  end.

(** [__str__] of the two exception classes of the module. *)
Definition exn__str__ (e : exn) : option string :=
  match e with
  | NodeNotEmptyError d => Some ("Node already added: " +:+ d)
  | TreePetrifiedError =>
      Some "Tree has become read-only, adding nodes not permitted"
  | _ => None
  end.

(** ** class LdapNode *)

Record LdapNode := mkLdapNode {
  parent : option addr;
  children : gmap string addr;
  descendants : option (gset addr);
  data : option Entry;
  toplevel : bool
}.

Definition LdapNode__init__ (parent : option addr) : LdapNode :=
  {| parent := parent; children := ∅; descendants := None;
     data := None; toplevel := true |}.

(** ** class LdapTree *)

Record LdapTree := mkLdapTree {
  heap : list LdapNode;
  top : addr;
  nodes_with_data : gset addr;
  branches : gset addr;
  petrified : bool
}.

Definition LdapTree__init__ : LdapTree :=
  {| heap := [LdapNode__init__ None]; top := 0;
     nodes_with_data := ∅; branches := ∅; petrified := false |}.

(** Attribute access through a reference. References handed out by the
    module always point into the store (see [wf]); a stray one reads as a
    blank node. *)
Definition deref (t : LdapTree) (a : addr) : LdapNode :=
  default (LdapNode__init__ None) (heap t !! a).

Notation "t @ a" := (deref t a) (at level 20, format "t @ a").

(** [a.parent], for the places where [parent] is a local variable. *)
Definition parent_of (t : LdapTree) (a : addr) : option addr := parent (t@a).

Definition set_heap (h : list LdapNode) (t : LdapTree) : LdapTree :=
  {| heap := h; top := top t; nodes_with_data := nodes_with_data t;
     branches := branches t; petrified := petrified t |}.

(** Attribute assignment [a.field = ...], as a store update. *)
Definition update (a : addr) (f : LdapNode → LdapNode) (t : LdapTree)
  : LdapTree :=
  set_heap (<[a := f (t@a)]> (heap t)) t.

(** [LdapNode(parent = p)]: the new object sits at the next address. *)
Definition alloc (n : LdapNode) (t : LdapTree) : addr * LdapTree :=
  (length (heap t), set_heap (heap t ++ [n]) t).

Definition set_child (name : string) (c : addr) (n : LdapNode) : LdapNode :=
  {| parent := parent n; children := <[name := c]> (children n);
     descendants := descendants n; data := data n; toplevel := toplevel n |}.

Definition set_data (d : Entry) (tl : bool) (n : LdapNode) : LdapNode :=
  {| parent := parent n; children := children n;
     descendants := descendants n; data := Some d; toplevel := tl |}.

Definition set_descendants (s : gset addr) (n : LdapNode) : LdapNode :=
  {| parent := parent n; children := children n;
     descendants := Some s; data := data n; toplevel := toplevel n |}.

Definition set_toplevel (tl : bool) (n : LdapNode) : LdapNode :=
  {| parent := parent n; children := children n;
     descendants := descendants n; data := data n; toplevel := tl |}.

(** [n.descendants.add(x)], on a node whose [descendants] is a set. *)
Definition descendants_add (x : addr) (n : LdapNode) : LdapNode :=
  match descendants n with
  | Some s => set_descendants ({[x]} ∪ s) n
  | None => n
  end.

Definition component : Type := string * string * string.

Section LdapTree.

(** ldap3's [parse_dn], an external collaborator: the components of a
    name, leaf first, each [(attribute, value, separator)]; [None] when it
    raises. *)
Variable parse_dn : string → option (list component).

(** *** _dn_to_path *)

(** The [for component in parse_dn(dn)] loop, threading the two local
    lists [path] and [rdn]. *)
Fixpoint _dn_to_path_loop (components : list component)
    (path rdn : list string) : list string :=
  match components with
  | [] => path
  | c :: rest =>
      let rdn := rdn ++ [c.1.1 +:+ "=" +:+ c.1.2] in
      if decide (c.2 ≠ "+")
      then _dn_to_path_loop rest (path ++ [String.concat "+" (sorted rdn)]) []
      else _dn_to_path_loop rest path rdn
  end.

Definition normalize (components : list component) : list string :=
  rev (_dn_to_path_loop components [] []).

Definition _dn_to_path (dn : string) : result pyseq :=
  match parse_dn dn with
  | None => Raise LDAPInvalidDnError
  | Some components =>
      reversed (PyList (_dn_to_path_loop components [] []))
  end.

(** *** _add_node *)

(** One turn of the descent: [node.children[name]], or on [KeyError] a new
    node hooked under [node]. *)
Definition select_or_create (name : string) (node : addr) (t : LdapTree)
  : addr * LdapTree :=
  match children (t@node) !! name with
  | Some child => (child, t)
  | None =>
      let parent := node in
      let '(node, t) := alloc (LdapNode__init__ (Some parent)) t in
      (node, update parent (set_child name node) t)
  end.

(** The [for name in path] loop with its locals [node] and [toplevel]. *)
Fixpoint descend (names : list string) (node : addr) (toplevel : bool)
    (t : LdapTree) : addr * bool * LdapTree :=
  match names with
  | [] => (node, toplevel, t)
  | name :: rest =>
      let '(node, t) := select_or_create name node t in
      let toplevel := if py_bool (data (t@node)) then false else toplevel in
      descend rest node toplevel t
  end.

Definition register_data (node : addr) (t : LdapTree) : LdapTree :=
  {| heap := heap t; top := top t;
     nodes_with_data := {[node]} ∪ nodes_with_data t;
     branches := branches t; petrified := petrified t |}.

Definition _add_node (d : Entry) (t : LdapTree) : result addr * LdapTree :=
  if petrified t then (Raise TreePetrifiedError, t)
  else
    match _dn_to_path (dn d) with
    | Raise e => (Raise e, t)
    | Ok path =>
        let '(names, path) := drain path in
        let '(node, toplevel, t) := descend names (top t) true t in
        if py_bool (data (t@node))
        then (Raise (raise_NodeNotEmptyError path), t)
        else (Ok node, register_data node (update node (set_data d toplevel) t))
    end.

(** *** add_node *)

Definition register_branch (node : addr) (t : LdapTree) : LdapTree :=
  {| heap := heap t; top := top t;
     nodes_with_data := nodes_with_data t;
     branches := {[node]} ∪ branches t; petrified := petrified t |}.

(** The method has no [return]: a successful call evaluates to [None]. *)
Definition add_node (d : Entry) (is_leaf : bool) (t : LdapTree)
  : result pyvalue * LdapTree :=
  match _add_node d t with
  | (Raise e, t) => (Raise e, t)
  | (Ok node, t) =>
      if negb is_leaf
      then (Ok PyNone,
            register_branch node (update node (set_descendants ∅) t))
      else (Ok PyNone, t)
  end.

(** *** _petrify *)

(** The [while True] walk for one [node], starting at [parent]. The loop
    has no bound of its own; [fuel] counts its turns and [None] is the
    answer of a walk that is still running when the count is spent. *)
Fixpoint walk (fuel : nat) (node : addr) (parent : option addr)
    (t : LdapTree) : option (result unit * LdapTree) :=
  match fuel with
  | 0 => None
  | S fuel =>
      if decide (parent = Some (top t)) then Some (Ok (), t)
      else
        match parent with
        | None => Some (Raise AttributeError, t)
        | Some p =>
            if py_bool (data (t@p)) && bool_decide (descendants (t@p) ≠ None)
            then Some (Ok (),
                       update p (descendants_add node)
                         (update node (set_toplevel false) t))
            else walk fuel node (parent_of t p) t
        end
  end.

(** Body of [for node in self.__nodes_with_data]. *)
Definition analyze (fuel : nat) (node : addr) (t : LdapTree)
  : option (result unit * LdapTree) :=
  if toplevel (t@node) then walk fuel node (parent (t@node)) t
  else Some (Ok (), t).

Fixpoint analyze_all (fuel : nat) (order : list addr) (t : LdapTree)
  : option (result unit * LdapTree) :=
  match order with
  | [] => Some (Ok (), t)
  | node :: rest =>
      match analyze fuel node t with
      | Some (Ok _, t) => analyze_all fuel rest t
      | other => other
      end
  end.

Definition set_petrified (t : LdapTree) : LdapTree :=
  {| heap := heap t; top := top t; nodes_with_data := nodes_with_data t;
     branches := branches t; petrified := true |}.

(** [order] is the order in which the iteration over the set
    [__nodes_with_data] visits its members, which Python leaves open. A
    walk gets as many turns as the store has objects. *)
Definition _petrify (order : list addr) (t : LdapTree)
  : option (result unit * LdapTree) :=
  match analyze_all (length (heap t)) order t with
  | Some (Ok _, t) => Some (Ok (), set_petrified t)
  | other => other
  end.

(** *** __iter__ *)

(** The iterator returned is over the set [__branches]; its members are
    what the caller gets, in no particular order. *)
Definition __iter__ (order : list addr) (t : LdapTree)
  : option (result (gset addr) * LdapTree) :=
  if negb (petrified t)
  then match _petrify order t with
       | Some (Ok _, t) => Some (Ok (branches t), t)
       | Some (Raise e, t) => Some (Raise e, t)
       | None => None
       end
  else Some (Ok (branches t), t).

End LdapTree.

(** ** A parser to run the module on concrete names

    ldap3's [parse_dn] is not part of this repository; the module is
    verified for any parser (the Section variable above). To run it on
    concrete names, [plain_parse_dn] does what [parse_dn] does on names
    written without escapes, quotes or spaces: it cuts at [,] and [+],
    splits each piece at its first [=], and reports the separator that
    followed the piece (the empty string after the last one). Like
    [parse_dn], it refuses ([None], the [LDAPInvalidDnError] of
    [_dn_to_path]) the empty name, a piece without [=], a piece without
    an attribute type, and a name that ends in a separator. A name with a
    backslash, a double quote or a space is outside what it reads, and it
    refuses it too; no run below uses one. *)

Definition beyond_plain (c : ascii) : bool :=
  bool_decide (c = "092"%char ∨ c = "034"%char ∨ c = " "%char).

Fixpoint plain_components (s key value : string) (in_value : bool)
  : option (list component) :=
  match s with
  | EmptyString => if in_value then Some [(key, value, "")] else None
  | String c s =>
      if beyond_plain c then None
      else if in_value then
        if bool_decide (c = ","%char ∨ c = "+"%char)
        then cons (key, value, String c "")
               <$> plain_components s "" "" false
        else plain_components s key (value +:+ String c "") true
      else if bool_decide (c = "="%char) then
        if bool_decide (key = "") then None
        else plain_components s key "" true
      else if bool_decide (c = ","%char ∨ c = "+"%char) then None
      else plain_components s (key +:+ String c "") "" false
  end.

Definition plain_parse_dn (s : string) : option (list component) :=
  plain_components s "" "" false.

(** ** Vocabulary of the properties *)

(** One hierarchy level as [parse_dn] reports it: every pair but the last
    is followed by [+], the last by [sep]. *)
Fixpoint level (pairs : list (string * string)) (sep : string)
  : list component :=
  match pairs with
  | [] => []
  | [(k, v)] => [(k, v, sep)]
  | (k, v) :: rest => (k, v, "+") :: level rest sep
  end.

Definition pair_string (kv : string * string) : string :=
  kv.1 +:+ "=" +:+ kv.2.

(** The node a path leads to from [node], following [children] only. *)
Fixpoint resolve (names : list string) (node : addr) (t : LdapTree)
  : option addr :=
  match names with
  | [] => Some node
  | name :: rest =>
      match children (t@node) !! name with
      | Some child => resolve rest child t
      | None => None
      end
  end.

(** The nodes below [node] that a path passes through, as far as they
    exist. *)
Fixpoint trail (names : list string) (node : addr) (t : LdapTree)
  : list addr :=
  match names with
  | [] => []
  | name :: rest =>
      match children (t@node) !! name with
      | Some child => child :: trail rest child t
      | None => []
      end
  end.

(** [ancestor t n k]: the node [k] steps up from [n] along [parent]. *)
Fixpoint ancestor (t : LdapTree) (n : addr) (k : nat) : option addr :=
  match k with
  | 0 => Some n
  | S k => ancestor t n k ≫= parent_of t
  end.

(** [a] is a proper ancestor of [n], [k] steps up, and the way up to it
    has not reached the root. *)
Definition below_root (t : LdapTree) (n : addr) (k : nat) (a : addr) : Prop :=
  1 ≤ k ∧ ancestor t n k = Some a ∧
  ∀ j, 1 ≤ j ≤ k → ancestor t n j ≠ Some (top t).

(** Holds data (as [if parent.data] sees it) and is a branch. *)
Definition qualifies (t : LdapTree) (a : addr) : Prop :=
  py_bool (data (t@a)) = true ∧ descendants (t@a) ≠ None.

Definition nearest (t : LdapTree) (n B : addr) : Prop :=
  ∃ k, below_root t n k B ∧ qualifies t B ∧
       ∀ j b, j < k → below_root t n j b → ¬ qualifies t b.

Definition no_qualifying_ancestor (t : LdapTree) (n : addr) : Prop :=
  ∀ k a, below_root t n k a → ¬ qualifies t a.

(** The shape every store built by the module has. *)
Record wf (t : LdapTree) : Prop := mk_wf {
  wf_top : top t = 0;
  wf_heap : 0 < length (heap t);
  wf_root : parent (t@0) = None;
  wf_parent : ∀ a, 0 < a < length (heap t) →
      ∃ p, parent (t@a) = Some p ∧ p < a;
  wf_children : ∀ a name c, children (t@a) !! name = Some c →
      a < c < length (heap t);
  wf_data : ∀ a, a ∈ nodes_with_data t → a < length (heap t);
  wf_branches : ∀ a, a ∈ branches t ↔ descendants (t@a) ≠ None
}.

(** Calls made on a tree, with what came of them: for [add_node] the
    outcome of the inner [_add_node] (the destination node, or the
    exception), for [__iter__] what it returned or raised. *)
Inductive event :=
  | Add (d : Entry) (is_leaf : bool) (r : result addr)
  | Iter (r : result (gset addr)).

Section History.

Variable parse_dn : string → option (list component).

(** [steps t evs t']: the calls [evs], made one after the other on [t],
    leave [t']. *)
Inductive steps : LdapTree → list event → LdapTree → Prop :=
  | steps_nil t : steps t [] t
  | steps_add t evs t' d is_leaf :
      steps t evs t' →
      steps t (evs ++ [Add d is_leaf (fst (_add_node parse_dn d t'))])
        (snd (add_node parse_dn d is_leaf t'))
  | steps_iter t evs t' order r t'' :
      steps t evs t' →
      order ≡ₚ elements (nodes_with_data t') →
      __iter__ order t' = Some (r, t'') →
      steps t (evs ++ [Iter r]) t''.

Definition history (evs : list event) (t : LdapTree) : Prop :=
  steps LdapTree__init__ evs t.

End History.

(** What the descent may change: it adds nodes and child entries, and
    touches nothing else. *)
Record grows (t t1 : LdapTree) : Prop := mk_grows {
  grows_top : top t1 = top t;
  grows_data_set : nodes_with_data t1 = nodes_with_data t;
  grows_branches : branches t1 = branches t;
  grows_petrified : petrified t1 = petrified t;
  grows_length : length (heap t) ≤ length (heap t1);
  grows_data : ∀ a, data (t1@a) = data (t@a);
  grows_descendants : ∀ a, descendants (t1@a) = descendants (t@a);
  grows_toplevel : ∀ a, toplevel (t1@a) = toplevel (t@a);
  grows_parent : ∀ a, a < length (heap t) → parent (t1@a) = parent (t@a);
  grows_children : ∀ a name c,
    children (t@a) !! name = Some c → children (t1@a) !! name = Some c
}.

(** What the analysis may change: [toplevel] flags go from true to false
    and descendant sets gain members; nothing else moves. *)
Record settles (t t' : LdapTree) : Prop := mk_settles {
  settles_length : length (heap t') = length (heap t);
  settles_top : top t' = top t;
  settles_data_set : nodes_with_data t' = nodes_with_data t;
  settles_branches : branches t' = branches t;
  settles_petrified : petrified t' = petrified t;
  settles_parent : ∀ a, parent (t'@a) = parent (t@a);
  settles_children : ∀ a, children (t'@a) = children (t@a);
  settles_data : ∀ a, data (t'@a) = data (t@a);
  settles_descendants : ∀ a,
    match descendants (t@a) with
    | Some s => ∃ s', descendants (t'@a) = Some s' ∧ s ⊆ s'
    | None => descendants (t'@a) = None
    end;
  settles_toplevel : ∀ a, toplevel (t@a) = false → toplevel (t'@a) = false
}.

(** The store after a walk that found its branch [B]. *)
Definition adopted (B node : addr) (t : LdapTree) : LdapTree :=
  update B (descendants_add node) (update node (set_toplevel false) t).

(** ** Sample runs

    Concrete trees, built with [plain_parse_dn], on which the properties
    are tried. *)

Definition entry (name : string) (i : nat) : Entry := mkEntry name true i.

Definition falsy_entry (name : string) (i : nat) : Entry :=
  mkEntry name false i.

(** A leaf inserted before the branch above it: [cn=bob,dc=example,dc=com]
    (node 3, under the bare nodes 1 and 2), then [dc=example,dc=com] as a
    branch (node 2). *)
Definition bob : Entry := entry "cn=bob,dc=example,dc=com" 1.

Definition example : Entry := entry "dc=example,dc=com" 2.

Definition bob_only : LdapTree :=
  (add_node plain_parse_dn bob true LdapTree__init__).2.

Definition bob_example : LdapTree :=
  (add_node plain_parse_dn example false bob_only).2.

Definition bob_example_events : list event :=
  ([] ++ [Add bob true (_add_node plain_parse_dn bob LdapTree__init__).1])
  ++ [Add example false (_add_node plain_parse_dn example bob_only).1].

Definition bob_example_petrified : LdapTree :=
  match __iter__ (elements (nodes_with_data bob_example)) bob_example with
  | Some (_, t) => t
  | None => bob_example
  end.

(** The same level written in two orders. *)
Definition ab : Entry := entry "cn=a+uid=b,dc=com" 3.

Definition ba : Entry := entry "uid=b+cn=a,dc=com" 4.

Definition ab_only : LdapTree :=
  (add_node plain_parse_dn ab true LdapTree__init__).2.

(** A falsy payload declared a branch, then a payload at the same path
    declared a leaf. *)
Definition hollow : Entry := falsy_entry "dc=com" 6.

Definition com : Entry := entry "dc=com" 7.

Definition hollow_only : LdapTree :=
  (add_node plain_parse_dn hollow false LdapTree__init__).2.

Definition hollow_com : LdapTree :=
  (add_node plain_parse_dn com true hollow_only).2.

Definition hollow_com_events : list event :=
  ([] ++ [Add hollow false (_add_node plain_parse_dn hollow LdapTree__init__).1])
  ++ [Add com true (_add_node plain_parse_dn com hollow_only).1].

(** A leaf with a truthy payload inserted under the branch of the falsy
    payload: [cn=x,dc=com] is node 2, its parent node 1. *)
Definition hollow_leaf : Entry := entry "cn=x,dc=com" 9.

Definition hollow_with_leaf : LdapTree :=
  (add_node plain_parse_dn hollow_leaf true hollow_only).2.

Definition hollow_with_leaf_events : list event :=
  ([] ++ [Add hollow false (_add_node plain_parse_dn hollow LdapTree__init__).1])
  ++ [Add hollow_leaf true (_add_node plain_parse_dn hollow_leaf hollow_only).1].

(** A second payload for the path of [example]. *)
Definition example_again : Entry := entry "dc=example,dc=com" 8.

(** A call made on the tree once it is petrified. *)
Definition petrified_then_add : LdapTree :=
  (add_node plain_parse_dn bob false bob_example_petrified).2.

Definition petrified_then_add_events : list event :=
  [] ++ [Add bob false (_add_node plain_parse_dn bob bob_example_petrified).1].

(** How [parent] and [children] fit together in the stores the module
    builds: a child points back at the node that lists it, a node with a
    parent is listed by it, and under one name only. *)
Record linked (t : LdapTree) : Prop := mk_linked {
  linked_child : ∀ p name c,
    children (t@p) !! name = Some c → parent (t@c) = Some p;
  linked_parent : ∀ a p,
    parent (t@a) = Some p → ∃ name, children (t@p) !! name = Some a;
  linked_name : ∀ p name1 name2 c,
    children (t@p) !! name1 = Some c → children (t@p) !! name2 = Some c →
    name1 = name2
}.

(** Calls among which there is no [__iter__]. *)
Definition adds_only (evs : list event) : Prop := ∀ r, Iter r ∉ evs.

(** A directory filled from the top: [dc=com] and [dc=example,dc=com]
    as branches (nodes 1 and 2), then the leaf
    [cn=alice,dc=example,dc=com] (node 3). *)
Definition dir_com : Entry := entry "dc=com" 10.

Definition dir_example : Entry := entry "dc=example,dc=com" 11.

Definition dir_alice : Entry := entry "cn=alice,dc=example,dc=com" 12.

Definition directory_com : LdapTree :=
  (add_node plain_parse_dn dir_com false LdapTree__init__).2.

Definition directory_example : LdapTree :=
  (add_node plain_parse_dn dir_example false directory_com).2.

Definition directory : LdapTree :=
  (add_node plain_parse_dn dir_alice true directory_example).2.

Definition directory_petrified : LdapTree :=
  match __iter__ (elements (nodes_with_data directory)) directory with
  | Some (_, t) => t
  | None => directory
  end.

(** [bob_example] after a second, refused, insertion at [example]'s
    path. *)
Definition bob_example_again : LdapTree :=
  (add_node plain_parse_dn example_again true bob_example).2.

(** What the module relies on from [parse_dn]: a name it accepts has a
    last component, and the separator reported with it is not [+]. ldap3
    reports the empty string there, and raises [LDAPInvalidDnError] on
    the empty name. *)
Definition closes_last_level
    (parse_dn : string → option (list component)) : Prop :=
  ∀ s components, parse_dn s = Some components →
    ∃ c, last components = Some c ∧ c.2 ≠ "+".

(** ** Strings: [sorted] does not see the order of its input *)

Lemma ascii_compare_refl a : Ascii.compare a a = Eq.
Proof. unfold Ascii.compare. apply N.compare_refl. Qed.

Lemma ascii_compare_Lt_trans a b c :
  Ascii.compare a b = Lt → Ascii.compare b c = Lt → Ascii.compare a c = Lt.
Proof.
  unfold Ascii.compare. rewrite !N.compare_lt_iff. apply N.lt_trans.
Qed.

Lemma string_compare_Lt_trans s1 : ∀ s2 s3,
  String.compare s1 s2 = Lt → String.compare s2 s3 = Lt →
  String.compare s1 s3 = Lt.
Proof.
  induction s1 as [|a s1 IH]; intros [|b s2] [|c s3]; simpl; try done.
  destruct (Ascii.compare a b) eqn:Hab; try done.
  - apply Ascii.compare_eq_iff in Hab as ->.
    destruct (Ascii.compare b c); try done. apply IH.
  - intros _. destruct (Ascii.compare b c) eqn:Hbc; try done.
    + apply Ascii.compare_eq_iff in Hbc as <-. by rewrite Hab.
    + by rewrite (ascii_compare_Lt_trans a b c).
Qed.

Lemma string_leb_alt s1 s2 :
  String.leb s1 s2 = true ↔ s1 = s2 ∨ String.compare s1 s2 = Lt.
Proof.
  unfold String.leb. split.
  - destruct (String.compare s1 s2) eqn:H; try done.
    + left. by apply String.compare_eq_iff.
    + by right.
  - intros [->| ->]; [|done].
    replace (String.compare s2 s2) with Eq; [done|].
    induction s2 as [|a s IH]; simpl; [done|].
    by rewrite ascii_compare_refl.
Qed.

Lemma string_le_trans : Transitive string_le.
Proof.
  intros s1 s2 s3. unfold string_le. rewrite !string_leb_alt.
  intros [->|H12] [->|H23]; eauto using string_compare_Lt_trans.
Qed.

Lemma string_le_antisym : AntiSymm (=) string_le.
Proof. intros s1 s2. apply String.leb_antisym. Qed.

Lemma string_le_total : Total string_le.
Proof. intros s1 s2. apply String.leb_total. Qed.

Lemma sorted_Permutation (l1 l2 : list string) :
  l1 ≡ₚ l2 → sorted l1 = sorted l2.
Proof.
  intros Hp. unfold sorted.
  pose proof string_le_trans. pose proof string_le_antisym.
  pose proof string_le_total.
  apply (Sorted_unique string_le); try apply Sorted_merge_sort; try done.
  by rewrite !merge_sort_Permutation.
Qed.

(** ** Path normalisation *)

Lemma _dn_to_path_loop_rdn_Permutation components : ∀ path rdn1 rdn2,
  rdn1 ≡ₚ rdn2 →
  _dn_to_path_loop components path rdn1 = _dn_to_path_loop components path rdn2.
Proof.
  induction components as [|c rest IH]; intros path rdn1 rdn2 Hp; [done|].
  simpl. assert (Hp' : rdn1 ++ [c.1.1 +:+ "=" +:+ c.1.2]
                        ≡ₚ rdn2 ++ [c.1.1 +:+ "=" +:+ c.1.2]) by by rewrite Hp.
  case_decide.
  - by rewrite (sorted_Permutation _ _ Hp').
  - by apply IH.
Qed.

(** What the loop does with one whole level. *)
Lemma _dn_to_path_loop_level pairs sep rest : ∀ path rdn,
  pairs ≠ [] →
  _dn_to_path_loop (level pairs sep ++ rest) path rdn =
  if decide (sep ≠ "+")
  then _dn_to_path_loop rest
         (path ++ [String.concat "+" (sorted (rdn ++ (pair_string <$> pairs)))])
         []
  else _dn_to_path_loop rest path (rdn ++ (pair_string <$> pairs)).
Proof.
  induction pairs as [|[k v] pairs IH]; intros path rdn Hne; [done|].
  destruct pairs as [|kv2 pairs].
  - simpl. by repeat case_decide.
  - change (level ((k, v) :: kv2 :: pairs) sep)
      with ((k, v, "+") :: level (kv2 :: pairs) sep).
    simpl app. cbn [_dn_to_path_loop].
    rewrite decide_False by (intros H; by apply H).
    rewrite IH by done. cbn [fst snd].
    change (pair_string <$> (k, v) :: kv2 :: pairs)
      with (pair_string (k, v) :: (pair_string <$> kv2 :: pairs)).
    unfold pair_string at 3 6. cbn [fst snd].
    by rewrite <- !(assoc_L (++) rdn), <- !cons_middle.
Qed.

Lemma _dn_to_path_loop_app_ext pre X Y :
  (∀ path rdn, _dn_to_path_loop X path rdn = _dn_to_path_loop Y path rdn) →
  ∀ path rdn,
    _dn_to_path_loop (pre ++ X) path rdn = _dn_to_path_loop (pre ++ Y) path rdn.
Proof.
  intros HXY. induction pre as [|c pre IH]; intros path rdn; [apply HXY|].
  simpl. case_decide; apply IH.
Qed.

Lemma _dn_to_path_loop_level_Permutation pairs1 pairs2 sep rest path rdn :
  pairs1 ≡ₚ pairs2 →
  _dn_to_path_loop (level pairs1 sep ++ rest) path rdn =
  _dn_to_path_loop (level pairs2 sep ++ rest) path rdn.
Proof.
  intros Hp. destruct (decide (pairs1 = [])) as [->|Hne].
  { by apply Permutation_nil_l in Hp as ->. }
  assert (pairs2 ≠ []) by (intros ->; by apply Permutation_nil_r in Hp).
  assert (Hs : rdn ++ (pair_string <$> pairs1)
               ≡ₚ rdn ++ (pair_string <$> pairs2)) by by rewrite Hp.
  rewrite !_dn_to_path_loop_level by done. case_decide.
  - by rewrite (sorted_Permutation _ _ Hs).
  - by apply _dn_to_path_loop_rdn_Permutation.
Qed.

Lemma normalize_Permutation pre pairs1 pairs2 sep post :
  pairs1 ≡ₚ pairs2 →
  normalize (pre ++ level pairs1 sep ++ post) =
  normalize (pre ++ level pairs2 sep ++ post).
Proof.
  intros Hp. unfold normalize. f_equal.
  apply _dn_to_path_loop_app_ext. intros path rdn.
  by apply _dn_to_path_loop_level_Permutation.
Qed.

Lemma normalize_level pairs sep :
  pairs ≠ [] → sep ≠ "+" →
  normalize (level pairs sep) =
  [String.concat "+" (sorted (pair_string <$> pairs))].
Proof.
  intros Hne Hsep. unfold normalize.
  rewrite <- (app_nil_r (level pairs sep)), _dn_to_path_loop_level by done.
  by rewrite decide_True.
Qed.

Lemma _dn_to_path_normalize parse_dn s components :
  parse_dn s = Some components →
  _dn_to_path parse_dn s = Ok (PyListReverseIterator (normalize components)).
Proof. intros H. unfold _dn_to_path. by rewrite H. Qed.

(** C3. Two names whose components differ only in the order of the
    attribute=value pairs inside one level have the same normalised path
    (the level's segment being its sorted pair strings joined by [+]), so
    the descent leads both to the same node: from any tree, [_add_node]
    ends at the same node for either name. *)
Theorem reordered_level_same_node parse_dn pre pairs1 pairs2 sep post d1 d2 t :
  pairs1 ≡ₚ pairs2 →
  parse_dn (dn d1) = Some (pre ++ level pairs1 sep ++ post) →
  parse_dn (dn d2) = Some (pre ++ level pairs2 sep ++ post) →
  normalize (pre ++ level pairs1 sep ++ post)
    = normalize (pre ++ level pairs2 sep ++ post) ∧
  _dn_to_path parse_dn (dn d1) = _dn_to_path parse_dn (dn d2) ∧
  (∀ node tl,
     (descend (normalize (pre ++ level pairs1 sep ++ post)) node tl t).1.1
     = (descend (normalize (pre ++ level pairs2 sep ++ post)) node tl t).1.1) ∧
  fst (_add_node parse_dn d1 t) = fst (_add_node parse_dn d2 t) ∧
  (pairs1 ≠ [] → sep ≠ "+" →
     normalize (level pairs1 sep)
       = [String.concat "+" (sorted (pair_string <$> pairs1))]
     ∧ normalize (level pairs2 sep) = normalize (level pairs1 sep)).
Proof.
  intros Hp H1 H2.
  pose proof (normalize_Permutation pre _ _ sep post Hp) as Hn.
  assert (Hpath : _dn_to_path parse_dn (dn d1) = _dn_to_path parse_dn (dn d2)).
  { by rewrite (_dn_to_path_normalize _ _ _ H1),
               (_dn_to_path_normalize _ _ _ H2), Hn. }
  split_and!; [done|done|by intros; rewrite Hn| |].
  - unfold _add_node. rewrite <- Hpath.
    destruct (petrified t); [done|].
    destruct (_dn_to_path parse_dn (dn d1)) as [path|e]; [|done].
    destruct (drain path) as [names path'].
    destruct (descend names (top t) true t) as [[node tl] t1].
    by destruct (py_bool (data (t1@node))).
  - intros Hne Hsep. split; [by apply normalize_level|].
    pose proof (normalize_Permutation [] _ _ sep [] Hp) as Hl.
    simpl in Hl. by rewrite !app_nil_r in Hl.
Qed.

(** ** The object store *)

Lemma deref_lookup t a n : heap t !! a = Some n → t@a = n.
Proof. unfold deref. by intros ->. Qed.

Lemma deref_stray t a : length (heap t) ≤ a → t@a = LdapNode__init__ None.
Proof. intros H. unfold deref. by rewrite lookup_ge_None_2. Qed.

Lemma deref_update a b f t :
  (update a f t)@b
  = if decide (a = b ∧ a < length (heap t)) then f (t@a) else t@b.
Proof.
  unfold update, deref at 1. simpl. case_decide as H.
  - destruct H as [<- H]. by rewrite list_lookup_insert_eq.
  - destruct (decide (a = b)) as [<-|Hne].
    + rewrite list_insert_ge by lia. done.
    + by rewrite list_lookup_insert_ne.
Qed.

Lemma deref_update_eq a f t :
  a < length (heap t) → (update a f t)@a = f (t@a).
Proof. intros H. rewrite deref_update. by rewrite decide_True. Qed.

Lemma deref_update_ne a b f t : a ≠ b → (update a f t)@b = t@b.
Proof. intros H. rewrite deref_update. rewrite decide_False; [done|tauto]. Qed.

Lemma length_update a f t : length (heap (update a f t)) = length (heap t).
Proof. unfold update. simpl. apply length_insert. Qed.

Lemma deref_alloc n t a :
  (alloc n t).2@a
  = if decide (a = length (heap t)) then n else t@a.
Proof.
  unfold alloc, deref. simpl. case_decide as H.
  - subst a. by rewrite lookup_app_r, Nat.sub_diag.
  - destruct (decide (a < length (heap t))).
    + by rewrite lookup_app_l.
    + rewrite !lookup_ge_None_2; [done|lia|rewrite length_app; simpl; lia].
Qed.

(** How a field-preserving assignment shows through [deref]. *)
Lemma update_field {A} (proj : LdapNode → A) a f t b :
  (∀ n, proj (f n) = proj n) → proj ((update a f t)@b) = proj (t@b).
Proof.
  intros Hf. rewrite deref_update. case_decide as H; [|done].
  destruct H as [<- _]. apply Hf.
Qed.

(** ** The descent *)

Lemma select_or_create_found name node t child :
  children (t@node) !! name = Some child →
  select_or_create name node t = (child, t).
Proof. intros H. unfold select_or_create. by rewrite H. Qed.

Lemma select_or_create_new name node t :
  children (t@node) !! name = None →
  select_or_create name node t
  = (length (heap t),
     update node (set_child name (length (heap t)))
       (alloc (LdapNode__init__ (Some node)) t).2).
Proof. intros H. unfold select_or_create. by rewrite H. Qed.

Lemma deref_created name node t a :
  node < length (heap t) →
  (update node (set_child name (length (heap t)))
     (alloc (LdapNode__init__ (Some node)) t).2)@a
  = if decide (a = node) then set_child name (length (heap t)) (t@node)
    else if decide (a = length (heap t)) then LdapNode__init__ (Some node)
    else t@a.
Proof.
  intros Hv. rewrite deref_update, !deref_alloc. simpl.
  rewrite length_app. simpl.
  repeat case_decide; try done; try lia; naive_solver lia.
Qed.

Lemma length_created name node t :
  length (heap (update node (set_child name (length (heap t)))
                  (alloc (LdapNode__init__ (Some node)) t).2))
  = S (length (heap t)).
Proof. rewrite length_update. simpl. rewrite length_app. simpl. lia. Qed.

Lemma grows_refl t : grows t t.
Proof. by constructor. Qed.

Lemma grows_trans t1 t2 t3 : grows t1 t2 → grows t2 t3 → grows t1 t3.
Proof.
  intros [] []. constructor; try congruence; try lia; eauto.
  - intros a Ha. etrans; [apply grows_parent1; lia|]. by apply grows_parent0.
Qed.

Lemma grows_created name node t :
  wf t → node < length (heap t) → children (t@node) !! name = None →
  grows t (update node (set_child name (length (heap t)))
             (alloc (LdapNode__init__ (Some node)) t).2).
Proof.
  intros Hwf Hv Hnone. constructor; try done.
  - rewrite length_created. lia.
  - intros a. rewrite deref_created by done. repeat case_decide; subst; try done.
    by rewrite deref_stray.
  - intros a. rewrite deref_created by done. repeat case_decide; subst; try done.
    by rewrite deref_stray.
  - intros a. rewrite deref_created by done. repeat case_decide; subst; try done.
    by rewrite deref_stray.
  - intros a Ha. rewrite deref_created by done.
    repeat case_decide; subst; try done; lia.
  - intros a k c Hc. rewrite deref_created by done.
    repeat case_decide; subst.
    + simpl. rewrite lookup_insert_ne; [done|]. intros <-. congruence.
    + rewrite deref_stray in Hc by done. done.
    + done.
Qed.

Lemma wf_created name node t :
  wf t → node < length (heap t) → children (t@node) !! name = None →
  wf (update node (set_child name (length (heap t)))
        (alloc (LdapNode__init__ (Some node)) t).2).
Proof.
  intros Hwf Hv Hnone. pose proof (grows_created _ _ _ Hwf Hv Hnone) as Hg.
  destruct Hwf. constructor.
  - done.
  - rewrite length_created. lia.
  - rewrite (grows_parent _ _ Hg) by done. done.
  - intros a Ha. rewrite length_created in Ha.
    destruct (decide (a = length (heap t))) as [->|].
    + rewrite deref_created by done. rewrite decide_False by lia.
      rewrite decide_True by done. simpl. eauto.
    + rewrite (grows_parent _ _ Hg) by lia. apply wf_parent0. lia.
  - intros a k c. rewrite deref_created, length_created by done.
    repeat case_decide; subst; simpl.
    + destruct (decide (name = k)) as [->|].
      * rewrite lookup_insert_eq. intros [= <-]. lia.
      * rewrite lookup_insert_ne by done. intros Hc%wf_children0. lia.
    + done.
    + intros Hc%wf_children0. lia.
  - intros a Ha. rewrite length_created. apply wf_data0 in Ha. lia.
  - intros a. rewrite (grows_descendants _ _ Hg). apply wf_branches0.
Qed.

Lemma trail_no_children names node t :
  children (t@node) = ∅ → trail names node t = [].
Proof. intros H. destruct names; simpl; [done|]. by rewrite H, lookup_empty. Qed.

(** The descent from a node of a well-formed store: where it ends, what
    it leaves behind, and the provisional [toplevel] it computes. *)
Lemma descend_spec names : ∀ node tl t n' tl' t1,
  wf t → node < length (heap t) →
  descend names node tl t = (n', tl', t1) →
  wf t1 ∧ grows t t1 ∧ n' < length (heap t1) ∧ node ≤ n' ∧
  resolve names node t1 = Some n' ∧
  (n' < length (heap t) → t1 = t) ∧
  tl' = tl && forallb (λ a, negb (py_bool (data (t@a)))) (trail names node t).
Proof.
  induction names as [|name rest IH]; intros node tl t n' tl' t1 Hwf Hv Hd.
  { simpl in Hd. injection Hd as <- <- <-.
    split_and!; auto using grows_refl. simpl. by rewrite andb_true_r. }
  cbn [descend] in Hd.
  destruct (children (t@node) !! name) as [c|] eqn:Hc.
  - rewrite (select_or_create_found _ _ _ _ Hc) in Hd.
    cbv beta iota zeta in Hd.
    pose proof (wf_children _ Hwf _ _ _ Hc) as [Hlt Hcv].
    apply IH in Hd as (Hwf1 & Hg & Hv' & Hle & Hr & Hold & Htl); [|done..].
    split_and!; try done; try lia.
    + simpl. by rewrite (grows_children _ _ Hg _ _ _ Hc).
    + rewrite Htl. simpl. rewrite Hc. simpl.
      by destruct (py_bool (data (t@c))), tl.
  - rewrite (select_or_create_new _ _ _ Hc) in Hd.
    cbv beta iota zeta in Hd.
    pose proof (wf_created _ _ _ Hwf Hv Hc) as Hwf0.
    pose proof (grows_created _ _ _ Hwf Hv Hc) as Hg0.
    pose proof (deref_created name node t (length (heap t)) Hv) as Hnew.
    rewrite decide_False, decide_True in Hnew by lia.
    pose proof (deref_created name node t node Hv) as Hnode.
    rewrite decide_True in Hnode by done.
    pose proof (length_created name node t) as Hlen.
    match type of Hd with descend _ _ _ ?x = _ => set (t0 := x) in * end.
    rewrite Hnew in Hd. simpl in Hd.
    apply IH in Hd as (Hwf1 & Hg & Hv' & Hle & Hr & Hold & Htl);
      [|done|lia].
    split_and!; try done; try lia.
    + by eapply grows_trans.
    + simpl. erewrite (grows_children _ _ Hg node name); [done|].
      rewrite Hnode. simpl. apply lookup_insert_eq.
    + rewrite Htl. simpl. rewrite Hc. simpl.
      rewrite trail_no_children; [done|]. by rewrite Hnew.
Qed.


Lemma resolve_grows names : ∀ node t t1 n,
  grows t t1 → resolve names node t = Some n → resolve names node t1 = Some n.
Proof.
  induction names as [|name rest IH]; intros node t t1 n Hg Hr; [done|].
  simpl in *. destruct (children (t@node) !! name) as [c|] eqn:Hc; [|done].
  rewrite (grows_children _ _ Hg _ _ _ Hc). eauto.
Qed.

(** ** Well-formedness is kept *)

Lemma wf_init : wf LdapTree__init__.
Proof.
  constructor; try done.
  - simpl. lia.
  - simpl. intros a Ha. lia.
  - intros a k c. destruct a as [|a]; [done|].
    rewrite deref_stray by (simpl; lia). done.
  - intros a. split; [set_solver|].
    destruct a as [|a]; [done|]. rewrite deref_stray by (simpl; lia). done.
Qed.

Lemma wf_update a f t :
  wf t →
  (∀ n, parent (f n) = parent n) →
  (∀ n, children (f n) = children n) →
  (∀ n, descendants (f n) ≠ None ↔ descendants n ≠ None) →
  wf (update a f t).
Proof.
  intros [] Hp Hc Hd. constructor; try done.
  - by rewrite length_update.
  - by rewrite update_field.
  - intros b Hb. rewrite length_update in Hb. rewrite update_field by done.
    by apply wf_parent0.
  - intros b k c. rewrite update_field, length_update by done.
    apply wf_children0.
  - intros b Hb. rewrite length_update. by apply wf_data0.
  - intros b. rewrite deref_update. case_decide as H; [|apply wf_branches0].
    destruct H as [<- _]. rewrite Hd. apply wf_branches0.
Qed.

Lemma wf_register_data node t :
  wf t → node < length (heap t) → wf (register_data node t).
Proof.
  intros [] Hv. constructor; try done.
  simpl. intros a [->%elem_of_singleton| Ha]%elem_of_union; auto.
Qed.

Lemma wf_set_petrified t : wf t → wf (set_petrified t).
Proof. intros []. by constructor. Qed.

Lemma deref_register_branch node t a : (register_branch node t)@a = t@a.
Proof. done. Qed.

Lemma deref_register_data node t a : (register_data node t)@a = t@a.
Proof. done. Qed.

Lemma deref_set_petrified t a : (set_petrified t)@a = t@a.
Proof. done. Qed.

Lemma wf_register_branch node t :
  wf t → node < length (heap t) →
  wf (register_branch node (update node (set_descendants ∅) t)).
Proof.
  intros [] Hv.
  constructor; rewrite ?deref_register_branch;
    change (heap (register_branch ?n ?t)) with (heap t);
    rewrite ?length_update; [done|done|..].
  - by rewrite update_field.
  - intros b Hb. rewrite deref_register_branch, update_field by done.
    by apply wf_parent0.
  - intros b k c. rewrite deref_register_branch, update_field by done.
    apply wf_children0.
  - exact wf_data0.
  - intros b. rewrite deref_register_branch, deref_update.
    change (branches (register_branch ?n ?t)) with ({[n]} ∪ branches t).
    change (branches (update ?n ?f ?t)) with (branches t).
    case_decide as H.
    + destruct H as [Hb _]. rewrite <- Hb. simpl.
      split; [done|]. intros _. apply elem_of_union. left.
      by apply elem_of_singleton.
    + rewrite elem_of_union, elem_of_singleton, wf_branches0.
      split; [|tauto]. intros [->|?]; [|done]. exfalso. apply H. done.
Qed.

Section AddNode.

Variable parse_dn : string → option (list component).

(** [_add_node] on a tree that is still being built, for a name the
    parser accepts. *)
Lemma _add_node_building d t components :
  petrified t = false → parse_dn (dn d) = Some components →
  _add_node parse_dn d t =
    let '(node, tl, t1) := descend (normalize components) (top t) true t in
    if py_bool (data (t1@node)) then (Raise TypeError, t1)
    else (Ok node, register_data node (update node (set_data d tl) t1)).
Proof.
  intros Hp Hc. unfold _add_node, _dn_to_path. rewrite Hp, Hc. done.
Qed.

Lemma _add_node_petrified d t :
  petrified t = true → _add_node parse_dn d t = (Raise TreePetrifiedError, t).
Proof. intros H. unfold _add_node. by rewrite H. Qed.

Lemma _add_node_unparsed d t :
  petrified t = false → parse_dn (dn d) = None →
  _add_node parse_dn d t = (Raise LDAPInvalidDnError, t).
Proof. intros Hp Hc. unfold _add_node, _dn_to_path. by rewrite Hp, Hc. Qed.

(** The three ways [_add_node] can go. *)
Lemma _add_node_cases d t :
  (∃ e, _add_node parse_dn d t = (Raise e, t) ∧
        (e = TreePetrifiedError ∧ petrified t = true
         ∨ e = LDAPInvalidDnError ∧ petrified t = false
           ∧ parse_dn (dn d) = None))
  ∨ ∃ components node tl t1,
      petrified t = false ∧ parse_dn (dn d) = Some components ∧
      descend (normalize components) (top t) true t = (node, tl, t1) ∧
      (py_bool (data (t1@node)) = true ∧
         _add_node parse_dn d t = (Raise TypeError, t1)
       ∨ py_bool (data (t1@node)) = false ∧
         _add_node parse_dn d t =
           (Ok node, register_data node (update node (set_data d tl) t1))).
Proof.
  destruct (petrified t) eqn:Hp.
  { left. eexists. split; [by apply _add_node_petrified|auto]. }
  destruct (parse_dn (dn d)) as [components|] eqn:Hc.
  2:{ left. eexists. split; [by apply _add_node_unparsed|auto]. }
  right. rewrite (_add_node_building _ _ _ Hp Hc).
  destruct (descend (normalize components) (top t) true t)
    as [[node tl] t1] eqn:Hd.
  exists components, node, tl, t1. split_and!; try done.
  destruct (py_bool (data (t1@node))); auto.
Qed.

Lemma wf__add_node d t :
  wf t → wf (_add_node parse_dn d t).2 ∧
  ∀ node, (_add_node parse_dn d t).1 = Ok node →
          node < length (heap (_add_node parse_dn d t).2).
Proof.
  intros Hwf.
  destruct (_add_node_cases d t)
    as [(e & -> & _)|(cs & node & tl & t1 & Hp & Hc & Hd & H)]; [done|].
  apply descend_spec in Hd as (Hwf1 & Hg & Hv & _); [|done|].
  2:{ rewrite (wf_top _ Hwf). apply (wf_heap _ Hwf). }
  destruct H as [[_ ->]|[_ ->]]; simpl; [done|].
  split.
  - apply wf_register_data; [|by rewrite length_update].
    by apply wf_update.
  - intros ? [= <-]. by rewrite length_insert.
Qed.

Lemma add_node_unfold d is_leaf t :
  add_node parse_dn d is_leaf t =
  match (_add_node parse_dn d t).1 with
  | Raise e => (Raise e, (_add_node parse_dn d t).2)
  | Ok node =>
      (Ok PyNone,
       if is_leaf then (_add_node parse_dn d t).2
       else register_branch node
              (update node (set_descendants ∅) (_add_node parse_dn d t).2))
  end.
Proof.
  unfold add_node. destruct (_add_node parse_dn d t) as [[node|e] t1]; [|done].
  by destruct is_leaf.
Qed.

Lemma wf_add_node d is_leaf t : wf t → wf (add_node parse_dn d is_leaf t).2.
Proof.
  intros Hwf. destruct (wf__add_node d t Hwf) as [Hwf1 Hv].
  rewrite add_node_unfold.
  destruct (_add_node parse_dn d t) as [[node|e] t1]; simpl in *; [|done].
  destruct is_leaf; [done|]. apply wf_register_branch; auto.
Qed.

End AddNode.

(** ** The analysis pass *)

Lemma settles_refl t : settles t t.
Proof.
  constructor; try done. intros a. destruct (descendants (t@a)); eauto.
Qed.

Lemma settles_trans t1 t2 t3 : settles t1 t2 → settles t2 t3 → settles t1 t3.
Proof.
  intros [] []. constructor; try congruence; eauto.
  intros a. specialize (settles_descendants0 a).
  specialize (settles_descendants1 a).
  destruct (descendants (t1@a)) as [s|].
  - destruct settles_descendants0 as (s' & Hs' & Hsub).
    rewrite Hs' in settles_descendants1.
    destruct settles_descendants1 as (s'' & Hs'' & Hsub').
    exists s''. split; [done|]. by etrans.
  - by rewrite settles_descendants0 in settles_descendants1.
Qed.

Lemma settles_descendants_iff t t' a :
  settles t t' → descendants (t'@a) ≠ None ↔ descendants (t@a) ≠ None.
Proof.
  intros Hs. pose proof (settles_descendants _ _ Hs a) as H.
  destruct (descendants (t@a)).
  - destruct H as (s' & -> & _). done.
  - by rewrite H.
Qed.

Lemma toplevel_descendants_add x n :
  toplevel (descendants_add x n) = toplevel n.
Proof. unfold descendants_add. by destruct (descendants n). Qed.

Lemma parent_descendants_add x n : parent (descendants_add x n) = parent n.
Proof. unfold descendants_add. by destruct (descendants n). Qed.

Lemma children_descendants_add x n :
  children (descendants_add x n) = children n.
Proof. unfold descendants_add. by destruct (descendants n). Qed.

Lemma data_descendants_add x n : data (descendants_add x n) = data n.
Proof. unfold descendants_add. by destruct (descendants n). Qed.

Lemma settles_adopted B node t : settles t (adopted B node t).
Proof.
  unfold adopted. constructor; try done.
  - by rewrite !length_update.
  - intros a. rewrite update_field by apply parent_descendants_add.
    by rewrite update_field.
  - intros a. rewrite update_field by apply children_descendants_add.
    by rewrite update_field.
  - intros a. rewrite update_field by apply data_descendants_add.
    by rewrite update_field.
  - intros a. rewrite deref_update. case_decide as H.
    + destruct H as [HB _]. rewrite <- HB.
      unfold descendants_add. rewrite !update_field by done.
      destruct (descendants (t@B)) as [s|] eqn:Hs.
      * simpl. eexists. split; [done|]. set_solver.
      * by rewrite update_field.
    + rewrite update_field by done. destruct (descendants (t@a)); eauto.
  - intros a Ha. rewrite update_field by apply toplevel_descendants_add.
    rewrite deref_update. by case_decide.
Qed.

Lemma adopted_toplevel_other B node t a :
  a ≠ node → toplevel ((adopted B node t)@a) = toplevel (t@a).
Proof.
  intros Hne. unfold adopted.
  rewrite update_field by apply toplevel_descendants_add.
  by rewrite deref_update_ne.
Qed.

Lemma adopted_result B node t :
  parent (t@node) ≠ None → descendants (t@B) ≠ None →
  toplevel ((adopted B node t)@node) = false ∧
  ∃ s, descendants ((adopted B node t)@B) = Some s ∧ node ∈ s.
Proof.
  intros Hp Hd.
  assert (Hv : node < length (heap t)).
  { destruct (decide (node < length (heap t))); [done|].
    rewrite deref_stray in Hp by lia. done. }
  assert (HvB : B < length (heap t)).
  { destruct (decide (B < length (heap t))); [done|].
    rewrite deref_stray in Hd by lia. done. }
  unfold adopted. split.
  - rewrite update_field by apply toplevel_descendants_add.
    by rewrite deref_update_eq.
  - rewrite deref_update_eq by by rewrite length_update.
    unfold descendants_add. rewrite !update_field by done.
    destruct (descendants (t@B)) as [s|]; [|done].
    simpl. eexists. split; [done|]. set_solver.
Qed.

Lemma qualifies_bool t a :
  py_bool (data (t@a)) && bool_decide (descendants (t@a) ≠ None) = true
  ↔ qualifies t a.
Proof.
  unfold qualifies. rewrite andb_true_iff, bool_decide_eq_true. done.
Qed.

(** A walk that has come [k] steps up without meeting the root or a
    branch with data either reaches the root with none found, or trips
    over [None], or stops at the nearest branch with data. *)
Lemma walk_spec fuel : ∀ node k t r t',
  1 ≤ k →
  (∀ j, 1 ≤ j < k →
        ancestor t node j ≠ Some (top t) ∧
        ∀ b, ancestor t node j = Some b → ¬ qualifies t b) →
  walk fuel node (ancestor t node k) t = Some (r, t') →
  (r = Ok () ∧ t' = t ∧ no_qualifying_ancestor t node)
  ∨ (r = Raise AttributeError ∧ t' = t)
  ∨ (r = Ok () ∧ ∃ B, nearest t node B ∧ t' = adopted B node t).
Proof.
  induction fuel as [|fuel IH]; intros node k t r t' Hk Hbelow Hw; [done|].
  cbn [walk] in Hw. case_decide as Htop.
  { injection Hw as <- <-. left. split_and!; [done..|].
    intros k' a (Hk' & Ha & Hnot) Hq.
    destruct (decide (k' < k)) as [Hlt|Hge].
    - by apply (Hbelow k' (conj Hk' Hlt)) in Hq.
    - apply (Hnot k); [lia|done]. }
  destruct (ancestor t node k) as [p|] eqn:Hp.
  2:{ injection Hw as <- <-. auto. }
  destruct (py_bool (data (t@p)) && bool_decide (descendants (t@p) ≠ None))
    eqn:Hq.
  - injection Hw as <- <-. right. right. split; [done|].
    apply qualifies_bool in Hq. exists p. split; [|done].
    exists k. split; [|split; [done|]].
    + split; [done|]. split; [done|].
      intros j Hj. destruct (decide (j = k)) as [->|]; [by rewrite Hp|].
      apply Hbelow. lia.
    + intros j b Hj (Hj1 & Hb & _). by apply (Hbelow j).
  - replace (parent_of t p) with (ancestor t node (S k)) in Hw
      by (simpl; by rewrite Hp).
    apply IH in Hw; [done|lia|].
    intros j Hj. destruct (decide (j = k)) as [->|]; [|apply Hbelow; lia].
    rewrite Hp. split; [done|]. intros b [= <-] Hqb.
    apply qualifies_bool in Hqb. congruence.
Qed.

(** The body of the loop, for one node. *)
Lemma analyze_spec fuel node t r t' :
  analyze fuel node t = Some (r, t') →
  (r = Ok () ∧ t' = t ∧
     (toplevel (t@node) = false ∨ no_qualifying_ancestor t node))
  ∨ (r = Raise AttributeError ∧ t' = t ∧ toplevel (t@node) = true)
  ∨ (r = Ok () ∧ toplevel (t@node) = true ∧
     ∃ B, nearest t node B ∧ t' = adopted B node t).
Proof.
  unfold analyze. destruct (toplevel (t@node)) eqn:Htl.
  - intros Hw. change (parent (t@node)) with (ancestor t node 1) in Hw.
    apply walk_spec in Hw; [|lia|intros j ?; lia].
    destruct Hw as [(-> & -> & ?)|[(-> & ->)|(-> & B & ? & ->)]]; eauto 10.
  - intros [= <- <-]. auto.
Qed.

Lemma settles_analyze fuel node t r t' :
  analyze fuel node t = Some (r, t') → settles t t'.
Proof.
  intros [(_ & -> & _)|[(_ & -> & _)|(_ & _ & B & _ & ->)]]%analyze_spec;
    auto using settles_refl, settles_adopted.
Qed.

Lemma analyze_toplevel_other fuel node t r t' a :
  analyze fuel node t = Some (r, t') → a ≠ node →
  toplevel (t'@a) = toplevel (t@a).
Proof.
  intros [(_ & -> & _)|[(_ & -> & _)|(_ & _ & B & _ & ->)]]%analyze_spec Hne;
    auto using adopted_toplevel_other.
Qed.

Lemma settles_analyze_all fuel order : ∀ t r t',
  analyze_all fuel order t = Some (r, t') → settles t t'.
Proof.
  induction order as [|node rest IH]; intros t r t' Ha; simpl in Ha.
  { injection Ha as <- <-. apply settles_refl. }
  destruct (analyze fuel node t) as [[[[]|e] t1]|] eqn:Hn; [| |done].
  - eapply settles_trans; [by eapply settles_analyze|]. by eapply IH.
  - injection Ha as <- <-. by eapply settles_analyze.
Qed.

(** The analysis does not move the landmarks the properties speak of. *)
Lemma ancestor_settles t t' n k :
  settles t t' → ancestor t' n k = ancestor t n k.
Proof.
  intros Hs. induction k as [|k IH]; [done|]. simpl. rewrite IH.
  destruct (ancestor t n k) as [a|]; [|done]. simpl. unfold parent_of.
  apply (settles_parent _ _ Hs).
Qed.

Lemma below_root_settles t t' n k a :
  settles t t' → below_root t' n k a ↔ below_root t n k a.
Proof.
  intros Hs. unfold below_root. rewrite (settles_top _ _ Hs).
  rewrite (ancestor_settles _ _ _ _ Hs).
  by setoid_rewrite (ancestor_settles _ _ _ _ Hs).
Qed.

Lemma qualifies_settles t t' a :
  settles t t' → qualifies t' a ↔ qualifies t a.
Proof.
  intros Hs. unfold qualifies.
  by rewrite (settles_data _ _ Hs), (settles_descendants_iff _ _ _ Hs).
Qed.

Lemma nearest_settles t t' n B :
  settles t t' → nearest t' n B ↔ nearest t n B.
Proof.
  intros Hs. unfold nearest.
  setoid_rewrite (below_root_settles _ _ _ _ _ Hs).
  by setoid_rewrite (qualifies_settles _ _ _ Hs).
Qed.

Lemma no_qualifying_ancestor_settles t t' n :
  settles t t' → no_qualifying_ancestor t' n ↔ no_qualifying_ancestor t n.
Proof.
  intros Hs. unfold no_qualifying_ancestor.
  setoid_rewrite (below_root_settles _ _ _ _ _ Hs).
  by setoid_rewrite (qualifies_settles _ _ _ Hs).
Qed.

Lemma nearest_unique t n B B' : nearest t n B → nearest t n B' → B = B'.
Proof.
  intros (k & Hk & Hq & Hmin) (k' & Hk' & Hq' & Hmin').
  destruct (decide (k < k')) as [Hlt|].
  { by destruct (Hmin' _ _ Hlt Hk). }
  destruct (decide (k' < k)) as [Hlt|].
  { by destruct (Hmin _ _ Hlt Hk'). }
  assert (k = k') as -> by lia.
  destruct Hk as (_ & Ha & _), Hk' as (_ & Ha' & _). congruence.
Qed.

Lemma nearest_qualifying t n B :
  nearest t n B → ¬ no_qualifying_ancestor t n.
Proof. intros (k & Hk & Hq & _) Hno. by apply (Hno k B). Qed.

Lemma nearest_parent t n B : nearest t n B → parent (t@n) ≠ None.
Proof.
  intros (k & (Hk & Ha & _) & _). destruct k as [|k]; [lia|].
  clear Hk. revert B Ha. induction k as [|k IH]; intros B Ha.
  - simpl in Ha. unfold parent_of in Ha. by rewrite Ha.
  - change (ancestor t n (S (S k)))
      with (ancestor t n (S k) ≫= parent_of t) in Ha.
    destruct (ancestor t n (S k)) as [b|] eqn:Hb; [|done]. by eapply IH.
Qed.

(** A node without a branch above it keeps its flag through the pass. *)
Lemma analyze_all_keeps_toplevel fuel order : ∀ t t' n,
  analyze_all fuel order t = Some (Ok (), t') →
  toplevel (t@n) = true → no_qualifying_ancestor t n →
  toplevel (t'@n) = true.
Proof.
  induction order as [|node rest IH]; intros t t' n Ha Htl Hno; simpl in Ha.
  { by injection Ha as <-. }
  destruct (analyze fuel node t) as [[[[]|e] t1]|] eqn:Hn; [|done..].
  pose proof (settles_analyze _ _ _ _ _ Hn) as Hs.
  eapply IH; [done| |by apply (no_qualifying_ancestor_settles _ _ _ Hs)].
  apply analyze_spec in Hn
    as [(_ & -> & _)|[(? & _)|(_ & _ & B & HB & ->)]]; [done..|].
  destruct (decide (n = node)) as [->|Hne].
  - by destruct (nearest_qualifying _ _ _ HB).
  - by rewrite adopted_toplevel_other.
Qed.

(** A node under a branch with data ends in the nearest one's set, with
    its flag off. *)
Lemma analyze_all_adopts fuel order : ∀ t t' n B,
  analyze_all fuel order t = Some (Ok (), t') →
  n ∈ order → toplevel (t@n) = true → nearest t n B →
  toplevel (t'@n) = false ∧ ∃ s, descendants (t'@B) = Some s ∧ n ∈ s.
Proof.
  induction order as [|node rest IH]; intros t t' n B Ha Hin Htl HB.
  { by apply elem_of_nil in Hin. }
  simpl in Ha.
  destruct (analyze fuel node t) as [[[[]|e] t1]|] eqn:Hn; [|done..].
  pose proof (settles_analyze _ _ _ _ _ Hn) as Hs.
  pose proof (settles_analyze_all _ _ _ _ _ Ha) as Hs'.
  destruct (decide (n = node)) as [->|Hne].
  - apply analyze_spec in Hn
      as [(_ & -> & [?|Hno])|[(? & _)|(_ & _ & B' & HB' & ->)]];
      [congruence|by destruct (nearest_qualifying _ _ _ HB)|done|].
    rewrite (nearest_unique _ _ _ _ HB' HB) in *.
    destruct (adopted_result B node t) as (Hf & s & Hd & Hm).
    { by eapply nearest_parent. }
    { by destruct HB as (_ & _ & [_ ?] & _). }
    split; [by apply (settles_toplevel _ _ Hs')|].
    pose proof (settles_descendants _ _ Hs' B) as Hd'. rewrite Hd in Hd'.
    destruct Hd' as (s' & -> & Hsub). exists s'. split; [done|].
    by apply Hsub.
  - apply elem_of_cons in Hin as [?|Hin]; [done|].
    eapply IH; [done..| |by apply (nearest_settles _ _ _ _ Hs)].
    by rewrite (analyze_toplevel_other _ _ _ _ _ _ Hn).
Qed.

Lemma _petrify_inv order t r t' :
  _petrify order t = Some (r, t') →
  ∃ t1, analyze_all (length (heap t)) order t = Some (r, t1) ∧
        t' = match r with Ok _ => set_petrified t1 | Raise _ => t1 end.
Proof.
  unfold _petrify.
  destruct (analyze_all (length (heap t)) order t) as [[[[]|e] t1]|];
    intros [= <- <-]; eauto.
Qed.

(** C1, as the code has it. After a pass of [_petrify] that returned,
    take a node of [__nodes_with_data] whose provisional [toplevel] was
    true. If above it, before the root, there is a node whose payload is
    truthy (what [if parent.data] tests) and which is a branch, then the
    nearest such node [B] has the node in its [descendants] and the node's
    [toplevel] is false; if there is none, the node's [toplevel] is still
    true. Whatever lies between the node and [B] - nodes without a
    payload, with a falsy payload, or with a payload but no [descendants]
    set - has no say: [nearest] only asks that none of them qualifies. The
    order in which the set is visited is any. *)
Theorem petrify_nearest_branch order t t' n :
  order ≡ₚ elements (nodes_with_data t) →
  _petrify order t = Some (Ok (), t') →
  n ∈ nodes_with_data t → toplevel (t@n) = true →
  (∀ B, nearest t n B →
        (∃ s, descendants (t'@B) = Some s ∧ n ∈ s) ∧
        toplevel (t'@n) = false) ∧
  (no_qualifying_ancestor t n → toplevel (t'@n) = true).
Proof.
  intros Hperm Hp Hn Htl.
  apply _petrify_inv in Hp as (t1 & Ha & ->).
  assert (Hin : n ∈ order) by (rewrite Hperm; by apply elem_of_elements).
  rewrite !deref_set_petrified. split.
  - intros B HB.
    destruct (analyze_all_adopts _ _ _ _ _ _ Ha Hin Htl HB) as [? ?]. done.
  - intros Hno. by eapply analyze_all_keeps_toplevel.
Qed.

Lemma wf_settles t t' : wf t → settles t t' → wf t'.
Proof.
  intros [] Hs. pose proof (settles_length _ _ Hs) as Hlen.
  constructor.
  - by rewrite (settles_top _ _ Hs).
  - lia.
  - by rewrite (settles_parent _ _ Hs).
  - intros a Ha. rewrite (settles_parent _ _ Hs). apply wf_parent0. lia.
  - intros a k c. rewrite (settles_children _ _ Hs), Hlen.
    apply wf_children0.
  - intros a. rewrite (settles_data_set _ _ Hs), Hlen. apply wf_data0.
  - intros a. rewrite (settles_branches _ _ Hs).
    rewrite (settles_descendants_iff _ _ _ Hs). apply wf_branches0.
Qed.

(** *** The walk ends *)

(** In a well-formed store every step up lands on a smaller address, so a
    walk that starts at [p] is over within [p + 1] turns. *)
Lemma walk_total fuel : ∀ t node p,
  wf t → p < length (heap t) → p < fuel →
  ∃ t', walk fuel node (Some p) t = Some (Ok (), t').
Proof.
  induction fuel as [|fuel IH]; intros t node p Hwf Hv Hf; [lia|].
  cbn [walk]. case_decide as Htop; [eauto|].
  destruct (py_bool (data (t@p)) && bool_decide (descendants (t@p) ≠ None));
    [eauto|].
  assert (p ≠ 0) by (rewrite (wf_top _ Hwf) in Htop; congruence).
  destruct (wf_parent _ Hwf p) as (p' & Hp' & Hlt); [lia|].
  unfold parent_of. rewrite Hp'. apply IH; [done|lia..].
Qed.

Lemma analyze_total fuel node t :
  wf t → node < length (heap t) → node ≠ 0 → length (heap t) ≤ fuel →
  ∃ t', analyze fuel node t = Some (Ok (), t').
Proof.
  intros Hwf Hv Hne Hf. unfold analyze.
  destruct (toplevel (t@node)); [|eauto].
  destruct (wf_parent _ Hwf node) as (p & -> & Hlt); [lia|].
  apply walk_total; [done|lia..].
Qed.

(** From the root itself the first thing the walk meets is [None]. *)
Lemma analyze_root fuel t :
  wf t → toplevel (t@0) = true →
  analyze (S fuel) 0 t = Some (Raise AttributeError, t).
Proof.
  intros Hwf Htl. unfold analyze. rewrite Htl, (wf_root _ Hwf).
  cbn [walk]. by rewrite decide_False.
Qed.

Lemma analyze_defined fuel node t :
  wf t → node < length (heap t) → length (heap t) ≤ fuel →
  ∃ r t', analyze fuel node t = Some (r, t').
Proof.
  intros Hwf Hv Hf. destruct (decide (node = 0)) as [->|Hne].
  - destruct (toplevel (t@0)) eqn:Htl.
    + destruct fuel as [|fuel]; [lia|]. rewrite analyze_root by done. eauto.
    + unfold analyze. rewrite Htl. eauto.
  - destruct (analyze_total fuel node t) as [t' ->]; eauto.
Qed.

Lemma analyze_all_total fuel order : ∀ t,
  wf t → (∀ n, n ∈ order → n < length (heap t) ∧ n ≠ 0) →
  length (heap t) ≤ fuel →
  ∃ t', analyze_all fuel order t = Some (Ok (), t').
Proof.
  induction order as [|node rest IH]; intros t Hwf Hord Hf; [by eexists|].
  destruct (Hord node) as [Hv Hne]; [by left|].
  destruct (analyze_total fuel node t) as [t1 Hn]; [done..|].
  simpl. rewrite Hn. pose proof (settles_analyze _ _ _ _ _ Hn) as Hs.
  apply IH.
  - by eapply wf_settles.
  - intros n Hin. rewrite (settles_length _ _ Hs). apply Hord. by right.
  - by rewrite (settles_length _ _ Hs).
Qed.

Lemma analyze_all_defined fuel order : ∀ t,
  wf t → (∀ n, n ∈ order → n < length (heap t)) →
  length (heap t) ≤ fuel →
  ∃ r t', analyze_all fuel order t = Some (r, t').
Proof.
  induction order as [|node rest IH]; intros t Hwf Hord Hf;
    [by repeat eexists|].
  destruct (analyze_defined fuel node t) as (r & t1 & Hn);
    [done|apply Hord; by left|done|].
  simpl. rewrite Hn. destruct r as [[]|e]; [|eauto].
  pose proof (settles_analyze _ _ _ _ _ Hn) as Hs. apply IH.
  - by eapply wf_settles.
  - intros n Hin. rewrite (settles_length _ _ Hs). apply Hord. by right.
  - by rewrite (settles_length _ _ Hs).
Qed.

(** [_petrify] always comes to an end on a well-formed store: the turns
    allotted to a walk are never used up. *)
Lemma _petrify_defined order t :
  wf t → order ≡ₚ elements (nodes_with_data t) →
  ∃ r t', _petrify order t = Some (r, t').
Proof.
  intros Hwf Hperm.
  destruct (analyze_all_defined (length (heap t)) order t)
    as (r & t1 & Ha); [done| |done|].
  { intros n Hn. rewrite Hperm in Hn. apply elem_of_elements in Hn.
    by apply (wf_data _ Hwf). }
  unfold _petrify. rewrite Ha. destruct r as [[]|e]; eauto.
Qed.

(** With no data on the root, [_petrify] returns. *)
Lemma _petrify_total order t :
  wf t → order ≡ₚ elements (nodes_with_data t) →
  0 ∉ nodes_with_data t →
  ∃ t', _petrify order t = Some (Ok (), t').
Proof.
  intros Hwf Hperm Hroot.
  destruct (analyze_all_total (length (heap t)) order t)
    as (t1 & Ha); [done| |done|].
  { intros n Hn. rewrite Hperm in Hn. apply elem_of_elements in Hn.
    split; [by apply (wf_data _ Hwf)|]. by intros ->. }
  unfold _petrify. rewrite Ha. eauto.
Qed.

Lemma wf__petrify order t r t' :
  wf t → _petrify order t = Some (r, t') → wf t'.
Proof.
  intros Hwf Hp. apply _petrify_inv in Hp as (t1 & Ha & ->).
  pose proof (wf_settles _ _ Hwf (settles_analyze_all _ _ _ _ _ Ha)).
  destruct r; [by apply wf_set_petrified|done].
Qed.

Lemma __iter___inv order t r t' :
  __iter__ order t = Some (r, t') →
  petrified t = true ∧ r = Ok (branches t) ∧ t' = t
  ∨ petrified t = false ∧
    (_petrify order t = Some (Ok (), t') ∧ r = Ok (branches t')
     ∨ ∃ e, _petrify order t = Some (Raise e, t') ∧ r = Raise e).
Proof.
  unfold __iter__. destruct (petrified t); simpl.
  { intros [= <- <-]. auto. }
  destruct (_petrify order t) as [[[[]|e] t1]|]; intros [= <- <-]; eauto 10.
Qed.

Lemma wf___iter__ order t r t' :
  wf t → __iter__ order t = Some (r, t') → wf t'.
Proof.
  intros Hwf Hi.
  apply __iter___inv in Hi as [(_ & _ & ->)|[_ [[Hp _]|(e & Hp & _)]]];
    eauto using wf__petrify.
Qed.

Lemma steps_wf parse_dn t evs t' : steps parse_dn t evs t' → wf t → wf t'.
Proof.
  induction 1; intros Hwf; eauto using wf_add_node, wf___iter__.
Qed.

Lemma history_wf parse_dn evs t : history parse_dn evs t → wf t.
Proof. intros H. eapply steps_wf; [done|apply wf_init]. Qed.

(** ** Life cycle: building, then petrified *)

Section Lifecycle.

Variable parse_dn : string → option (list component).

Lemma add_node_petrified d is_leaf t :
  petrified t = true →
  add_node parse_dn d is_leaf t = (Raise TreePetrifiedError, t).
Proof.
  intros H. unfold add_node. by rewrite _add_node_petrified.
Qed.

Lemma __iter___petrified order t :
  petrified t = true → __iter__ order t = Some (Ok (branches t), t).
Proof. intros H. unfold __iter__. by rewrite H. Qed.

Lemma __iter___Ok_petrified order t bs t' :
  __iter__ order t = Some (Ok bs, t') →
  petrified t' = true ∧ bs = branches t'.
Proof.
  intros Hi.
  apply __iter___inv in Hi
    as [(Hp & [= ->] & ->)|[_ [[Hp [= ->]]|(e & _ & ?)]]]; [done| |done].
  apply _petrify_inv in Hp as (t1 & _ & ->). done.
Qed.

(** Once petrified, no call moves the tree. *)
Lemma steps_petrified t evs t' :
  steps parse_dn t evs t' → petrified t = true → t' = t.
Proof.
  induction 1 as [|t evs t' d is_leaf _ IH|t evs t' order r t'' _ IH _ Hi];
    intros Hp; [done| |].
  - rewrite IH by done. by rewrite add_node_petrified.
  - rewrite IH in Hi by done. rewrite __iter___petrified in Hi by done.
    by injection Hi as _ <-.
Qed.

(** C4. Once [__iter__] has returned, every later [add_node] - whatever
    other calls were made in between - raises [TreePetrifiedError] and
    leaves the tree exactly as it was: no node created, no data
    assigned, nothing registered. *)
Theorem add_node_after_iter_raises order t bs t1 evs t2 d is_leaf :
  __iter__ order t = Some (Ok bs, t1) →
  steps parse_dn t1 evs t2 →
  add_node parse_dn d is_leaf t2 = (Raise TreePetrifiedError, t2) ∧
  heap t2 = heap t1 ∧
  nodes_with_data t2 = nodes_with_data t1 ∧
  branches t2 = branches t1.
Proof.
  intros Hi Hsteps. apply __iter___Ok_petrified in Hi as [Hp _].
  rewrite (steps_petrified _ _ _ Hsteps Hp).
  by rewrite add_node_petrified.
Qed.

(** C5. Once [__iter__] has returned, every later [__iter__] - in
    whatever order it would visit the nodes, and whatever calls were made
    in between - returns the same set of branches and leaves the tree,
    hence every [descendants] set and every [toplevel] flag, as the first
    call left it; the later calls skip the analysis ([petrified] is set,
    so [_petrify] is not entered). *)
Theorem iter_idempotent order t bs t1 evs t2 order' :
  __iter__ order t = Some (Ok bs, t1) →
  steps parse_dn t1 evs t2 →
  __iter__ order' t2 = Some (Ok bs, t1) ∧
  petrified t2 = true ∧
  (∀ a, descendants (t2@a) = descendants (t1@a)
        ∧ toplevel (t2@a) = toplevel (t1@a)).
Proof.
  intros Hi Hsteps. apply __iter___Ok_petrified in Hi as [Hp ->].
  rewrite (steps_petrified _ _ _ Hsteps Hp).
  by rewrite __iter___petrified.
Qed.

(** ** Insertion *)

Lemma history_top evs t : history parse_dn evs t → top t < length (heap t).
Proof.
  intros Hwf%history_wf. rewrite (wf_top _ Hwf). apply (wf_heap _ Hwf).
Qed.

(** C7. When [add_node] fails because the destination already holds
    data, the tree is left as the descent left it - nothing the descent
    built is taken back, every path that led somewhere still does - and
    the destination's data, [__nodes_with_data] and [__branches] are what
    they were before the call. (The descent of such a call has in fact
    built nothing: the destination was there, so was the way to it.) *)
Theorem failed_add_node_applies_nothing evs t d is_leaf components e t' :
  history parse_dn evs t →
  petrified t = false → parse_dn (dn d) = Some components →
  add_node parse_dn d is_leaf t = (Raise e, t') →
  ∃ node tl t1,
    descend (normalize components) (top t) true t = (node, tl, t1) ∧
    py_bool (data (t@node)) = true ∧
    t' = t1 ∧
    (∀ names a, resolve names (top t) t = Some a →
                resolve names (top t') t' = Some a) ∧
    (∀ names a, resolve names (top t1) t1 = Some a →
                resolve names (top t') t' = Some a) ∧
    data (t'@node) = data (t@node) ∧
    nodes_with_data t' = nodes_with_data t ∧
    branches t' = branches t ∧
    t' = t.
Proof.
  intros Hh Hp Hc Ha.
  pose proof (history_wf _ _ _ Hh) as Hwf.
  rewrite add_node_unfold, (_add_node_building _ _ _ _ Hp Hc) in Ha.
  destruct (descend (normalize components) (top t) true t)
    as [[node tl] t1] eqn:Hd.
  exists node, tl, t1. split; [done|].
  destruct (py_bool (data (t1@node))) eqn:Hdata; simpl in Ha; [|done].
  injection Ha as <- <-.
  apply descend_spec in Hd as (_ & Hg & _ & _ & _ & Hold & _);
    [|done|by eapply history_top].
  rewrite (grows_data _ _ Hg) in Hdata.
  assert (node < length (heap t)) as ->%Hold.
  { destruct (decide (node < length (heap t))); [done|].
    rewrite deref_stray in Hdata by lia. done. }
  done.
Qed.

Lemma data_register_branch node t a :
  data ((register_branch node (update node (set_descendants ∅) t))@a)
  = data (t@a).
Proof. by rewrite deref_register_branch, update_field. Qed.

Lemma children_register_branch node t a :
  children ((register_branch node (update node (set_descendants ∅) t))@a)
  = children (t@a).
Proof. by rewrite deref_register_branch, update_field. Qed.

Lemma resolve_children names : ∀ node t t',
  (∀ a, children (t'@a) = children (t@a)) →
  resolve names node t' = resolve names node t.
Proof.
  induction names as [|name rest IH]; intros node t t' Hc; [done|].
  simpl. rewrite Hc. destruct (children (t@node) !! name); eauto.
Qed.

(** What a successful [_add_node] returns and leaves. *)
Lemma _add_node_Ok d t node t' :
  wf t → _add_node parse_dn d t = (Ok node, t') →
  ∃ components tl t1,
    parse_dn (dn d) = Some components ∧ petrified t = false ∧
    descend (normalize components) (top t) true t = (node, tl, t1) ∧
    py_bool (data (t@node)) = false ∧
    node < length (heap t1) ∧
    t' = register_data node (update node (set_data d tl) t1) ∧
    resolve (normalize components) (top t') t' = Some node ∧
    data (t'@node) = Some d ∧ toplevel (t'@node) = tl.
Proof.
  intros Hwf Ha.
  destruct (_add_node_cases parse_dn d t)
    as [(e & He & _)|(cs & node' & tl & t1 & Hp & Hc & Hd & H)];
    [congruence|].
  destruct H as [[_ H]|[Hdata H]]; rewrite H in Ha; [done|].
  injection Ha as -> <-. exists cs, tl, t1.
  pose proof Hd as Hd'.
  apply descend_spec in Hd' as (_ & Hg & Hv & _ & Hr & _ & _);
    [|done|rewrite (wf_top _ Hwf); apply (wf_heap _ Hwf)].
  rewrite (grows_data _ _ Hg) in Hdata.
  split_and!; try done.
  - change (top (register_data ?n ?t)) with (top t).
    change (top (update ?n ?f ?t)) with (top t).
    rewrite (grows_top _ _ Hg).
    erewrite resolve_children; [done|]. intros a.
    by rewrite deref_register_data, update_field.
  - by rewrite deref_register_data, deref_update_eq.
  - by rewrite deref_register_data, deref_update_eq.
Qed.

(** C9, as the code has it. [add_node(data, is_leaf)] has no [return]:
    a successful call evaluates to [None]. It is the inner
    [_add_node(data)] that returns the destination node - the node at the
    end of the normalised path, to which [data] has been assigned and
    which is now in [__nodes_with_data]. *)
Theorem inner_add_node_returns_destination evs t d node t' :
  history parse_dn evs t →
  _add_node parse_dn d t = (Ok node, t') →
  (∃ components,
     parse_dn (dn d) = Some components ∧
     resolve (normalize components) (top t') t' = Some node) ∧
  data (t'@node) = Some d ∧
  node ∈ nodes_with_data t' ∧
  ∀ is_leaf, (add_node parse_dn d is_leaf t).1 = Ok PyNone.
Proof.
  intros Hwf%history_wf Ha.
  destruct (_add_node_Ok _ _ _ _ Hwf Ha)
    as (cs & tl & t1 & Hc & _ & _ & _ & _ & Ht' & Hr & Hd & _).
  split_and!; eauto.
  - rewrite Ht'. simpl. set_solver.
  - intros is_leaf. rewrite add_node_unfold, Ha. done.
Qed.

End Lifecycle.

(** ** Which nodes are branches *)

Lemma __iter___frame order t r t' :
  __iter__ order t = Some (r, t') →
  branches t' = branches t ∧
  (∀ a, data (t'@a) = data (t@a)) ∧
  (∀ a, descendants (t'@a) ≠ None ↔ descendants (t@a) ≠ None).
Proof.
  intros Hi.
  assert (∃ t1, settles t t1 ∧ (t' = t1 ∨ t' = set_petrified t1))
    as (t1 & Hs & Ht').
  { apply __iter___inv in Hi as [(_ & _ & ->)|[_ [[Hp _]|(e & Hp & _)]]].
    - exists t. auto using settles_refl.
    - apply _petrify_inv in Hp as (t1 & Ha & ->).
      exists t1. eauto using settles_analyze_all.
    - apply _petrify_inv in Hp as (t1 & Ha & ->).
      exists t1. eauto using settles_analyze_all. }
  assert (∀ a, t'@a = t1@a) as Hd by (by destruct Ht' as [->| ->]).
  split_and!.
  - destruct Ht' as [->| ->]; apply (settles_branches _ _ Hs).
  - intros a. rewrite Hd. apply (settles_data _ _ Hs).
  - intros a. rewrite Hd. by apply settles_descendants_iff.
Qed.

Section Branches.

Variable parse_dn : string → option (list component).

Lemma _add_node_frame d t :
  wf t →
  branches (_add_node parse_dn d t).2 = branches t ∧
  (∀ a, py_bool (data (t@a)) = true →
        data ((_add_node parse_dn d t).2@a) = data (t@a)) ∧
  (∀ a, descendants ((_add_node parse_dn d t).2@a) = descendants (t@a)).
Proof.
  intros Hwf.
  destruct (_add_node_cases parse_dn d t)
    as [(e & -> & _)|(cs & node & tl & t1 & Hp & Hc & Hd & H)]; [done|].
  apply descend_spec in Hd as (_ & Hg & _);
    [|done|rewrite (wf_top _ Hwf); apply (wf_heap _ Hwf)].
  destruct H as [[_ ->]|[Hdata ->]]; simpl.
  - split_and!; [apply (grows_branches _ _ Hg)| |apply (grows_descendants _ _ Hg)].
    intros a _. apply (grows_data _ _ Hg).
  - split_and!.
    + apply (grows_branches _ _ Hg).
    + intros a Ha. rewrite deref_register_data, deref_update.
      case_decide as Heq; [|apply (grows_data _ _ Hg)].
      destruct Heq as [Heq _]. rewrite <- Heq in Ha.
      rewrite (grows_data _ _ Hg) in Hdata. congruence.
    + intros a. rewrite deref_register_data, update_field by done.
      apply (grows_descendants _ _ Hg).
Qed.

Lemma add_node_truthy_kept d is_leaf t a :
  wf t → py_bool (data (t@a)) = true →
  data ((add_node parse_dn d is_leaf t).2@a) = data (t@a).
Proof.
  intros Hwf Ha. destruct (_add_node_frame d t Hwf) as (_ & Hdata & _).
  rewrite add_node_unfold.
  destruct (_add_node parse_dn d t) as [[node|e] t1]; simpl in *; [|auto].
  destruct is_leaf; [auto|]. rewrite data_register_branch. auto.
Qed.

Lemma add_node_branches d is_leaf t :
  wf t →
  branches (add_node parse_dn d is_leaf t).2 =
  match (_add_node parse_dn d t).1, is_leaf with
  | Ok node, false => {[node]} ∪ branches t
  | _, _ => branches t
  end.
Proof.
  intros Hwf. destruct (_add_node_frame d t Hwf) as (Hb & _ & _).
  rewrite add_node_unfold.
  destruct (_add_node parse_dn d t) as [[node|e] t1]; simpl in *; [|done].
  destruct is_leaf; [done|]. simpl. by rewrite Hb.
Qed.

(** [__branches] holds the destinations of the successful insertions made
    with [is_leaf] false. *)
Lemma history_branches evs t :
  history parse_dn evs t →
  ∀ n, n ∈ branches t ↔ ∃ d, Add d false (Ok n) ∈ evs.
Proof.
  unfold history. intros H. remember LdapTree__init__ as t0 eqn:Ht0.
  induction H as [|t0 evs t' d is_leaf H IH|t0 evs t' order r t'' H IH _ Hi];
    intros n.
  - subst. split; [set_solver|]. intros [d Hd]. by apply elem_of_nil in Hd.
  - specialize (IH Ht0). subst t0.
    rewrite add_node_branches by by eapply history_wf.
    setoid_rewrite elem_of_app. setoid_rewrite list_elem_of_singleton.
    destruct (_add_node parse_dn d t').1 as [node|e] eqn:Hr; [destruct is_leaf|].
    + rewrite IH. split; [intros [d' ?]; eauto|].
      intros [d' [?|?]]; [eauto|congruence].
    + rewrite elem_of_union, elem_of_singleton, IH. split.
      * intros [->|[d' ?]]; eauto.
      * intros [d' [?|[= _ ->]]]; eauto.
    + rewrite IH. split; [intros [d' ?]; eauto|].
      intros [d' [?|?]]; [eauto|congruence].
  - specialize (IH Ht0). subst t0.
    destruct (__iter___frame _ _ _ _ Hi) as (-> & _ & _).
    rewrite IH. setoid_rewrite elem_of_app.
    setoid_rewrite list_elem_of_singleton.
    split; [intros [d ?]; eauto|]. intros [d [?|?]]; [eauto|done].
Qed.

(** A truthy payload, once assigned, stays. *)
Lemma history_truthy evs t :
  history parse_dn evs t →
  ∀ d is_leaf n, Add d is_leaf (Ok n) ∈ evs → truth d = true →
                 py_bool (data (t@n)) = true.
Proof.
  unfold history. intros H. remember LdapTree__init__ as t0 eqn:Ht0.
  induction H as [|t0 evs t' d is_leaf H IH|t0 evs t' order r t'' H IH _ Hi];
    intros d0 l0 n Hin Htruth.
  - by apply elem_of_nil in Hin.
  - specialize (IH Ht0). subst t0.
    pose proof (history_wf _ _ _ H) as Hwf.
    apply elem_of_app in Hin as [Hin|Hin].
    + pose proof (IH _ _ _ Hin Htruth) as Hn.
      by rewrite add_node_truthy_kept.
    + apply list_elem_of_singleton in Hin. injection Hin as <- <- Hr.
      destruct (_add_node parse_dn d0 t') as [r t1] eqn:Ha.
      simpl in Hr. subst r.
      destruct (_add_node_Ok _ _ _ _ _ Hwf Ha)
        as (cs & tl & t2 & _ & _ & _ & _ & _ & _ & _ & Hd & _).
      rewrite add_node_unfold, Ha. simpl.
      destruct l0; [by rewrite Hd|]. by rewrite data_register_branch, Hd.
  - specialize (IH Ht0). subst t0.
    apply elem_of_app in Hin as [Hin|Hin];
      [|by apply list_elem_of_singleton in Hin].
    destruct (__iter___frame _ _ _ _ Hi) as (_ & Hdata & _).
    rewrite Hdata. eauto.
Qed.

(** So a node takes at most one truthy payload. *)
Lemma history_truthy_once evs t :
  history parse_dn evs t →
  ∀ d1 l1 d2 l2 n,
    Add d1 l1 (Ok n) ∈ evs → Add d2 l2 (Ok n) ∈ evs →
    truth d1 = true → truth d2 = true → d1 = d2 ∧ l1 = l2.
Proof.
  unfold history. intros H. remember LdapTree__init__ as t0 eqn:Ht0.
  induction H as [|t0 evs t' d is_leaf H IH|t0 evs t' order r t'' H IH _ Hi];
    intros d1 l1 d2 l2 n Hin1 Hin2 Ht1 Ht2.
  - by apply elem_of_nil in Hin1.
  - specialize (IH Ht0). subst t0.
    pose proof (history_wf _ _ _ H) as Hwf.
    assert (Hfresh : ∀ d' l', Add d' l' (Ok n) ∈ evs → truth d' = true →
              (_add_node parse_dn d t').1 = Ok n → False).
    { intros d' l' Hin Htr Hr.
      pose proof (history_truthy _ _ H _ _ _ Hin Htr) as Hn.
      destruct (_add_node parse_dn d t') as [r t1] eqn:Ha.
      simpl in Hr. subst r.
      destruct (_add_node_Ok _ _ _ _ _ Hwf Ha)
        as (cs & tl & t2 & _ & _ & _ & Hfalse & _). congruence. }
    apply elem_of_app in Hin1 as [Hin1|Hin1];
      apply elem_of_app in Hin2 as [Hin2|Hin2].
    + eauto.
    + apply list_elem_of_singleton in Hin2. injection Hin2 as <- <- Hr.
      by destruct (Hfresh _ _ Hin1 Ht1).
    + apply list_elem_of_singleton in Hin1. injection Hin1 as <- <- Hr.
      by destruct (Hfresh _ _ Hin2 Ht2).
    + apply list_elem_of_singleton in Hin1, Hin2.
      by injection Hin1 as <- <- _; injection Hin2 as <- <- _.
  - specialize (IH Ht0). subst t0.
    apply elem_of_app in Hin1 as [Hin1|Hin1];
      [|by apply list_elem_of_singleton in Hin1].
    apply elem_of_app in Hin2 as [Hin2|Hin2];
      [|by apply list_elem_of_singleton in Hin2].
    eauto.
Qed.

(** C6, as the code has it. Whenever [__iter__] returns: a node is in
    what it returns exactly when some successful insertion at that node
    was made with [is_leaf] false, and exactly those nodes have a
    [descendants] set. A node inserted with [is_leaf] true is not
    returned, provided the payloads inserted at it were truthy - a node
    then takes one insertion only. *)
Theorem iter_returns_declared_branches evs t order out t' :
  history parse_dn evs t →
  __iter__ order t = Some (Ok out, t') →
  (∀ n, n ∈ out ↔ ∃ d, Add d false (Ok n) ∈ evs) ∧
  (∀ n, descendants (t'@n) ≠ None ↔ ∃ d, Add d false (Ok n) ∈ evs) ∧
  (∀ d n, Add d true (Ok n) ∈ evs →
          (∀ d' l', Add d' l' (Ok n) ∈ evs → truth d' = true) →
          (n ∉ out) ∧ descendants (t'@n) = None).
Proof.
  intros Hh Hi.
  destruct (__iter___frame _ _ _ _ Hi) as (Hb & _ & Hdesc).
  apply __iter___Ok_petrified in Hi as [_ ->]. rewrite Hb.
  pose proof (history_branches _ _ Hh) as Hbr.
  pose proof (wf_branches _ (history_wf _ _ _ Hh)) as Hwfb.
  assert (Hleaf : ∀ d n, Add d true (Ok n) ∈ evs →
            (∀ d' l', Add d' l' (Ok n) ∈ evs → truth d' = true) →
            n ∉ branches t).
  { intros d n Hin Hall [d' Hin']%Hbr.
    destruct (history_truthy_once _ _ Hh _ _ _ _ _ Hin Hin') as [_ ?];
      [eauto..|done]. }
  split_and!; [done| |].
  - intros n. by rewrite Hdesc, <- Hwfb.
  - intros d n Hin Hall. pose proof (Hleaf _ _ Hin Hall) as Hn.
    split; [done|]. rewrite Hwfb, <- Hdesc in Hn.
    by destruct (descendants (t'@n)); [destruct Hn|].
Qed.

End Branches.

(** ** Inserting twice at one path *)

Section Twice.

Variable parse_dn : string → option (list component).

Lemma add_node_petrified_same d is_leaf t :
  wf t → petrified (add_node parse_dn d is_leaf t).2 = petrified t.
Proof.
  intros Hwf. rewrite add_node_unfold.
  assert (petrified (_add_node parse_dn d t).2 = petrified t) as Hp.
  { destruct (_add_node_cases parse_dn d t)
      as [(e & -> & _)|(cs & node & tl & t1 & _ & _ & Hd & H)]; [done|].
    apply descend_spec in Hd as (_ & Hg & _);
      [|done|rewrite (wf_top _ Hwf); apply (wf_heap _ Hwf)].
    destruct H as [[_ ->]|[_ ->]]; apply (grows_petrified _ _ Hg). }
  destruct (_add_node parse_dn d t).1; [|done]. by destruct is_leaf.
Qed.

(** The tree a successful [add_node] leaves: the path leads to the node,
    the node holds the payload. *)
Lemma add_node_Ok d is_leaf t node t1 components :
  wf t → _add_node parse_dn d t = (Ok node, t1) →
  parse_dn (dn d) = Some components →
  resolve (normalize components) (top (add_node parse_dn d is_leaf t).2)
    (add_node parse_dn d is_leaf t).2 = Some node ∧
  data ((add_node parse_dn d is_leaf t).2@node) = Some d ∧
  petrified (add_node parse_dn d is_leaf t).2 = false.
Proof.
  intros Hwf Ha Hc.
  destruct (_add_node_Ok _ _ _ _ _ Hwf Ha)
    as (cs & tl & t2 & Hc' & Hp & _ & _ & _ & _ & Hr & Hd & _).
  assert (cs = components) as -> by congruence.
  split_and!; [| |by rewrite add_node_petrified_same].
  - rewrite add_node_unfold, Ha. simpl. destruct is_leaf; [done|].
    change (top (register_branch ?n ?t)) with (top t).
    change (top (update ?n ?f ?t)) with (top t).
    erewrite resolve_children; [done|]. apply children_register_branch.
  - rewrite add_node_unfold, Ha. simpl. destruct is_leaf; [done|].
    by rewrite data_register_branch.
Qed.



Lemma _add_node_never_NodeNotEmptyError d t s :
  (_add_node parse_dn d t).1 ≠ Raise (NodeNotEmptyError s).
Proof.
  destruct (_add_node_cases parse_dn d t)
    as [(e & -> & [[-> _]|[-> _]])|(cs & node & tl & t1 & _ & _ & _ & H)];
    [done..|].
  by destruct H as [[_ ->]|[_ ->]].
Qed.

(** The provisional [toplevel] of an inserted node: true unless one of
    the nodes the path passes through, the destination included, has a
    truthy [data]. *)
Lemma _add_node_toplevel d t node t' components :
  wf t → _add_node parse_dn d t = (Ok node, t') →
  parse_dn (dn d) = Some components →
  toplevel (t'@node) =
    forallb (λ a, negb (py_bool (data (t@a))))
      (trail (normalize components) (top t) t).
Proof.
  intros Hwf Ha Hc.
  destruct (_add_node_Ok _ _ _ _ _ Hwf Ha)
    as (cs & tl & t2 & Hc' & _ & Hd & _ & _ & _ & _ & _ & ->).
  assert (cs = components) as -> by congruence.
  apply descend_spec in Hd as (_ & _ & _ & _ & _ & _ & ->);
    [done|done|rewrite (wf_top _ Hwf); apply (wf_heap _ Hwf)].
Qed.


End Twice.

(** ** The sample runs *)

Lemma bob_only_history :
  history plain_parse_dn
    ([] ++ [Add bob true (_add_node plain_parse_dn bob LdapTree__init__).1])
    bob_only.
Proof. apply steps_add, steps_nil. Qed.

Lemma bob_example_history :
  history plain_parse_dn bob_example_events bob_example.
Proof. apply steps_add, bob_only_history. Qed.

Lemma hollow_com_history :
  history plain_parse_dn hollow_com_events hollow_com.
Proof. apply steps_add, steps_add, steps_nil. Qed.

Example plain_parse_dn_ab :
  plain_parse_dn "cn=a+uid=b,dc=com"
  = Some [("cn", "a", "+"); ("uid", "b", ","); ("dc", "com", "")].
Proof. reflexivity. Qed.

Example normalize_ab :
  normalize [("cn", "a", "+"); ("uid", "b", ","); ("dc", "com", "")]
  = ["dc=com"; "cn=a+uid=b"]
  ∧ normalize [("uid", "b", "+"); ("cn", "a", ","); ("dc", "com", "")]
    = ["dc=com"; "cn=a+uid=b"].
Proof. split; vm_compute; reflexivity. Qed.

Example bob_example_nodes :
  elements (nodes_with_data bob_example) = [2; 3]
  ∧ elements (branches bob_example) = [2]
  ∧ (toplevel <$> heap bob_example) = [true; true; true; true]
  ∧ (parent <$> heap bob_example) = [None; Some 0; Some 1; Some 2].
Proof. vm_compute. done. Qed.

Example bob_example_nearest : nearest bob_example 3 2.
Proof.
  exists 1. split_and!.
  - split; [done|]. split; [by vm_compute|].
    intros j Hj. assert (j = 1) as -> by lia. by vm_compute.
  - split; by vm_compute.
  - intros j b Hj [? _]. lia.
Qed.

Example bob_example_petrified_nodes :
  (toplevel <$> heap bob_example_petrified) = [true; true; true; false]
  ∧ (fmap elements ∘ descendants <$> heap bob_example_petrified)
    = [None; None; Some [3]; None]
  ∧ petrified bob_example_petrified = true.
Proof. vm_compute. done. Qed.

(** C2: what the code does. A name inserted once with a truthy payload
    and then again, its two pairs swapped, reaches the node that holds
    the first payload; the [raise NodeNotEmptyError(path)] it then runs
    hands [__init__] the iterator [_dn_to_path] returned, [reversed] of
    an iterator is a [TypeError], and that is what the caller gets. Had
    [path] been a list, the exception would carry the name rebuilt from
    it. *)
Theorem second_insertion_raises_TypeError :
  (_add_node plain_parse_dn ab LdapTree__init__).1 = Ok 2
  ∧ add_node plain_parse_dn ba true ab_only = (Raise TypeError, ab_only)
  ∧ reversed (PyListReverseIterator []) = Raise TypeError
  ∧ raise_NodeNotEmptyError (PyListReverseIterator []) = TypeError
  ∧ raise_NodeNotEmptyError (PyList ["dc=com"; "cn=a+uid=b"])
    = NodeNotEmptyError "cn=a+uid=b,dc=com"
  ∧ exn__str__ (NodeNotEmptyError "cn=a+uid=b,dc=com")
    = Some "Node already added: cn=a+uid=b,dc=com".
Proof. split_and!; vm_compute; reflexivity. Qed.

(** C6, as the spec states it, fails: [com] is inserted with [is_leaf]
    true, the insertion goes through (the payload its node held was
    falsy), and the node is in what [__iter__] returns, with a
    [descendants] set. *)
Lemma leaf_insertion_returned_by_iter :
  history plain_parse_dn hollow_com_events hollow_com
  ∧ Add com true (Ok 1) ∈ hollow_com_events
  ∧ ∃ out t',
      __iter__ (elements (nodes_with_data hollow_com)) hollow_com
      = Some (Ok out, t')
      ∧ 1 ∈ out ∧ descendants (t'@1) ≠ None.
Proof.
  split; [apply hollow_com_history|]. split.
  - apply elem_of_app. right. apply list_elem_of_singleton.
    vm_compute. reflexivity.
  - eexists _, _. split; [vm_compute; reflexivity|].
    split; by vm_compute.
Qed.

(** C1, as the spec states it, fails. Node 1 was given the payload
    [hollow], it is in [__nodes_with_data] and it is a branch; node 2,
    right under it, was given a truthy payload as a leaf and its
    provisional [toplevel] is true. [_petrify] returns; node 2 is not in
    the [descendants] of node 1, which is empty, and its [toplevel] is
    still true: the payload of node 1 is falsy, [if parent.data] takes it
    for no payload, and the walk goes on to the root. *)
Lemma falsy_branch_adopts_nothing :
  history plain_parse_dn hollow_with_leaf_events hollow_with_leaf
  ∧ 2 ∈ nodes_with_data hollow_with_leaf
  ∧ toplevel (hollow_with_leaf@2) = true
  ∧ parent (hollow_with_leaf@2) = Some 1
  ∧ 1 ≠ top hollow_with_leaf
  ∧ data (hollow_with_leaf@1) = Some hollow
  ∧ 1 ∈ nodes_with_data hollow_with_leaf
  ∧ 1 ∈ branches hollow_with_leaf
  ∧ descendants (hollow_with_leaf@1) ≠ None
  ∧ ∃ t',
      _petrify (elements (nodes_with_data hollow_with_leaf)) hollow_with_leaf
      = Some (Ok (), t')
      ∧ descendants (t'@1) = Some ∅
      ∧ toplevel (t'@2) = true.
Proof.
  split; [apply steps_add, steps_add, steps_nil|].
  split; [by vm_compute|]. split; [vm_compute; reflexivity|].
  split; [vm_compute; reflexivity|]. split; [by vm_compute|].
  split; [vm_compute; reflexivity|]. split; [by vm_compute|].
  split; [by vm_compute|]. split; [by vm_compute|].
  eexists. split; [vm_compute; reflexivity|].
  split; vm_compute; reflexivity.
Qed.

(** C9, as the spec states it, fails: the call that inserts [example]
    at node 2 returns [None], not the node. *)
Lemma add_node_returns_None :
  add_node plain_parse_dn example false bob_only = (Ok PyNone, bob_example)
  ∧ (_add_node plain_parse_dn example bob_only).1 = Ok 2
  ∧ resolve ["dc=com"; "dc=example"] (top bob_example) bob_example = Some 2
  ∧ data (bob_example@2) = Some example
  ∧ PyNone ≠ PyNodeRef 2.
Proof. split_and!; try (vm_compute; reflexivity). done. Qed.

(** ** The theorems at work on the sample runs *)

Lemma petrify_nearest_branch_witness :
  (∀ B, nearest bob_example 3 B →
        (∃ s, descendants (bob_example_petrified@B) = Some s ∧ 3 ∈ s) ∧
        toplevel (bob_example_petrified@3) = false) ∧
  (no_qualifying_ancestor bob_example 3 →
   toplevel (bob_example_petrified@3) = true).
Proof.
  apply (petrify_nearest_branch (elements (nodes_with_data bob_example))
           bob_example bob_example_petrified 3).
  - reflexivity.
  - vm_compute. reflexivity.
  - vm_compute. reflexivity.
  - vm_compute. reflexivity.
Defined.

Lemma reordered_level_same_node_witness :
  _dn_to_path plain_parse_dn (dn ab) = _dn_to_path plain_parse_dn (dn ba)
  ∧ (_add_node plain_parse_dn ab ab_only).1
    = (_add_node plain_parse_dn ba ab_only).1.
Proof.
  pose proof (reordered_level_same_node plain_parse_dn []
                [("cn", "a"); ("uid", "b")] [("uid", "b"); ("cn", "a")]
                "," [("dc", "com", "")] ab ba ab_only
                (perm_swap _ _ _) eq_refl eq_refl) as (_ & H1 & _ & H2 & _).
  exact (conj H1 H2).
Defined.

Lemma add_node_after_iter_raises_witness :
  add_node plain_parse_dn com true petrified_then_add
  = (Raise TreePetrifiedError, petrified_then_add) ∧
  heap petrified_then_add = heap bob_example_petrified ∧
  nodes_with_data petrified_then_add = nodes_with_data bob_example_petrified ∧
  branches petrified_then_add = branches bob_example_petrified.
Proof.
  apply (add_node_after_iter_raises plain_parse_dn
           (elements (nodes_with_data bob_example)) bob_example
           (branches bob_example_petrified) bob_example_petrified
           petrified_then_add_events petrified_then_add com true).
  - vm_compute. reflexivity.
  - apply steps_add, steps_nil.
Defined.

Lemma iter_idempotent_witness :
  __iter__ [3; 2] petrified_then_add
  = Some (Ok (branches bob_example_petrified), bob_example_petrified) ∧
  petrified petrified_then_add = true ∧
  (∀ a, descendants (petrified_then_add@a)
        = descendants (bob_example_petrified@a)
        ∧ toplevel (petrified_then_add@a)
          = toplevel (bob_example_petrified@a)).
Proof.
  apply (iter_idempotent plain_parse_dn
           (elements (nodes_with_data bob_example)) bob_example
           (branches bob_example_petrified) bob_example_petrified
           petrified_then_add_events petrified_then_add [3; 2]).
  - vm_compute. reflexivity.
  - apply steps_add, steps_nil.
Defined.

Lemma iter_returns_declared_branches_witness :
  (∀ n, n ∈ branches bob_example_petrified
        ↔ ∃ d, Add d false (Ok n) ∈ bob_example_events) ∧
  (∀ n, descendants (bob_example_petrified@n) ≠ None
        ↔ ∃ d, Add d false (Ok n) ∈ bob_example_events) ∧
  (∀ d n, Add d true (Ok n) ∈ bob_example_events →
          (∀ d' l', Add d' l' (Ok n) ∈ bob_example_events →
                    truth d' = true) →
          (n ∉ branches bob_example_petrified)
          ∧ descendants (bob_example_petrified@n) = None).
Proof.
  apply (iter_returns_declared_branches plain_parse_dn bob_example_events
           bob_example (elements (nodes_with_data bob_example))
           (branches bob_example_petrified) bob_example_petrified).
  - apply steps_add, steps_add, steps_nil.
  - vm_compute. reflexivity.
Defined.

Lemma failed_add_node_applies_nothing_witness :
  ∃ node tl t1,
    descend (normalize [("dc", "example", ","); ("dc", "com", "")])
      (top bob_example) true bob_example = (node, tl, t1) ∧
    py_bool (data (bob_example@node)) = true ∧
    bob_example = t1 ∧
    (∀ names a, resolve names (top bob_example) bob_example = Some a →
                resolve names (top bob_example) bob_example = Some a) ∧
    (∀ names a, resolve names (top t1) t1 = Some a →
                resolve names (top bob_example) bob_example = Some a) ∧
    data (bob_example@node) = data (bob_example@node) ∧
    nodes_with_data bob_example = nodes_with_data bob_example ∧
    branches bob_example = branches bob_example ∧
    bob_example = bob_example.
Proof.
  apply (failed_add_node_applies_nothing plain_parse_dn bob_example_events
           bob_example example_again true
           [("dc", "example", ","); ("dc", "com", "")] TypeError bob_example).
  - apply steps_add, steps_add, steps_nil.
  - reflexivity.
  - reflexivity.
  - vm_compute. reflexivity.
Defined.

Lemma inner_add_node_returns_destination_witness :
  (∃ components,
     plain_parse_dn (dn example) = Some components ∧
     resolve (normalize components)
       (top (_add_node plain_parse_dn example bob_only).2)
       (_add_node plain_parse_dn example bob_only).2 = Some 2) ∧
  data ((_add_node plain_parse_dn example bob_only).2@2) = Some example ∧
  2 ∈ nodes_with_data (_add_node plain_parse_dn example bob_only).2 ∧
  ∀ is_leaf, (add_node plain_parse_dn example is_leaf bob_only).1 = Ok PyNone.
Proof.
  apply (inner_add_node_returns_destination plain_parse_dn
           ([] ++ [Add bob true (_add_node plain_parse_dn bob LdapTree__init__).1])
           bob_only example 2 (_add_node plain_parse_dn example bob_only).2).
  - apply steps_add, steps_nil.
  - vm_compute. reflexivity.
Defined.


(** ** More on path normalisation *)

(** The segments found so far are only ever appended to. *)
Lemma _dn_to_path_loop_path components : ∀ path rdn,
  _dn_to_path_loop components path rdn
  = path ++ _dn_to_path_loop components [] rdn.
Proof.
  induction components as [|c rest IH]; intros path rdn; simpl.
  { by rewrite app_nil_r. }
  case_decide; [|apply IH].
  rewrite (IH (path ++ _)), (IH [_]). by rewrite <- (assoc_L (++)).
Qed.

Lemma _dn_to_path_loop_closed l1 c l2 : ∀ path rdn,
  c.2 ≠ "+" →
  _dn_to_path_loop ((l1 ++ [c]) ++ l2) path rdn
  = _dn_to_path_loop l2 (_dn_to_path_loop (l1 ++ [c]) path rdn) [].
Proof.
  intros path rdn Hc. revert path rdn.
  induction l1 as [|c1 l1 IH]; intros path rdn; simpl.
  - by rewrite !decide_True.
  - case_decide; apply IH.
Qed.

(** X1. A name yields one segment per component that closes a level (one
    whose separator is not [+]). *)
Theorem normalize_length components :
  length (normalize components)
  = length (filter (λ c : component, c.2 ≠ "+") components).
Proof.
  unfold normalize. rewrite length_rev.
  assert (∀ path rdn,
    length (_dn_to_path_loop components path rdn)
    = length path + length (filter (λ c : component, c.2 ≠ "+") components))
    as H; [|by rewrite H].
  induction components as [|c rest IH]; intros path rdn; simpl; [lia|].
  rewrite filter_cons. case_decide.
  - rewrite IH, length_app. simpl. lia.
  - apply IH.
Qed.

(** X2. Splitting a name where a level ends splits its path: the path of
    the whole is the path of the upper part followed by the path of the
    lower part. *)
Theorem normalize_app l1 l2 :
  (∀ c, last l1 = Some c → c.2 ≠ "+") →
  normalize (l1 ++ l2) = normalize l2 ++ normalize l1.
Proof.
  intros Hlast. unfold normalize. rewrite <- rev_app_distr. f_equal.
  destruct l1 as [|c0 l1] using rev_ind; [done|]. clear IHl1.
  rewrite _dn_to_path_loop_closed by (apply Hlast; by rewrite last_snoc).
  apply _dn_to_path_loop_path.
Qed.

(** X3. Components left hanging on a [+] at the end of a name, with no
    component to close their level, are dropped without a word. *)
Theorem normalize_dangling components tail :
  Forall (λ c : component, c.2 = "+") tail →
  normalize (components ++ tail) = normalize components.
Proof.
  intros Htail. unfold normalize. f_equal. generalize (@nil string) at 1 3.
  generalize (@nil string).
  induction components as [|c rest IH]; intros rdn path; simpl.
  - revert rdn. induction Htail as [|c tail Hc _ IH]; intros rdn; [done|].
    simpl. rewrite decide_False by (intros H; by apply H). apply IH.
  - case_decide; apply IH.
Qed.

Lemma _dn_to_path_loop_single_valued components :
  Forall (λ c : component, c.2 ≠ "+") components →
  _dn_to_path_loop components [] []
  = (λ c : component, c.1.1 +:+ "=" +:+ c.1.2) <$> components.
Proof.
  intros Hall. induction Hall as [|c rest Hc _ IH]; [done|].
  simpl. rewrite decide_True by done.
  rewrite _dn_to_path_loop_path, IH. done.
Qed.

(** X4. With one pair per level the path is the pairs, written
    [attribute=value], in reverse order. *)
Theorem normalize_single_valued components :
  Forall (λ c : component, c.2 ≠ "+") components →
  normalize components
  = rev ((λ c : component, c.1.1 +:+ "=" +:+ c.1.2) <$> components).
Proof.
  intros Hall. unfold normalize. f_equal.
  by apply _dn_to_path_loop_single_valued.
Qed.

(** X17. Handed the path of a name with one pair per level as a list,
    [NodeNotEmptyError] carries the name back: its pairs, in the order
    they were given, joined by commas. Handed the iterator [reversed]
    makes, its constructor raises [TypeError]. *)
Theorem NodeNotEmptyError_carries_name components :
  Forall (λ c : component, c.2 ≠ "+") components →
  NodeNotEmptyError__init__ (PyList (normalize components))
  = Ok (NodeNotEmptyError
          (String.concat ","
             ((λ c : component, c.1.1 +:+ "=" +:+ c.1.2) <$> components)))
  ∧ ∀ remaining,
      NodeNotEmptyError__init__ (PyListReverseIterator remaining)
      = Raise TypeError.
Proof.
  intros Hall. split; [|done].
  unfold NodeNotEmptyError__init__, normalize. simpl.
  rewrite rev_involutive. by rewrite _dn_to_path_loop_single_valued.
Qed.

(** ** More on insertion *)

Lemma descend_length names : ∀ node tl t n' tl' t1,
  wf t → node < length (heap t) →
  descend names node tl t = (n', tl', t1) →
  length (heap t1) + length (trail names node t)
  = length (heap t) + length names.
Proof.
  induction names as [|name rest IH]; intros node tl t n' tl' t1 Hwf Hv Hd.
  { simpl in Hd. by injection Hd as <- <- <-. }
  cbn [descend] in Hd. simpl.
  destruct (children (t@node) !! name) as [c|] eqn:Hc.
  - rewrite (select_or_create_found _ _ _ _ Hc) in Hd.
    cbv beta iota zeta in Hd.
    pose proof (wf_children _ Hwf _ _ _ Hc) as [Hlt Hcv].
    apply IH in Hd; [|done..]. simpl. lia.
  - rewrite (select_or_create_new _ _ _ Hc) in Hd.
    cbv beta iota zeta in Hd.
    pose proof (wf_created _ _ _ Hwf Hv Hc) as Hwf0.
    pose proof (deref_created name node t (length (heap t)) Hv) as Hnew.
    rewrite decide_False, decide_True in Hnew by lia.
    pose proof (length_created name node t) as Hlen.
    apply IH in Hd; [|done|lia].
    rewrite trail_no_children in Hd by by rewrite Hnew.
    simpl in *. lia.
Qed.

Lemma __iter___settles order t r t' :
  __iter__ order t = Some (r, t') →
  ∃ t1, settles t t1 ∧ (t' = t1 ∨ t' = set_petrified t1).
Proof.
  intros Hi.
  apply __iter___inv in Hi as [(_ & _ & ->)|[_ [[Hp _]|(e & Hp & _)]]].
  - exists t. auto using settles_refl.
  - apply _petrify_inv in Hp as (t1 & Ha & ->).
    exists t1. eauto using settles_analyze_all.
  - apply _petrify_inv in Hp as (t1 & Ha & ->).
    exists t1. eauto using settles_analyze_all.
Qed.

Section MoreInsertion.

Variable parse_dn : string → option (list component).

Lemma add_node_raise_wf t d is_leaf e t' :
  wf t →
  add_node parse_dn d is_leaf t = (Raise e, t') →
  t' = t ∧
  (e = TreePetrifiedError ∧ petrified t = true
   ∨ e = LDAPInvalidDnError ∧ petrified t = false ∧ parse_dn (dn d) = None
   ∨ e = TypeError ∧ petrified t = false ∧
     ∃ components node,
       parse_dn (dn d) = Some components ∧
       resolve (normalize components) (top t) t = Some node ∧
       py_bool (data (t@node)) = true).
Proof.
  intros Hwf Ha.
  rewrite add_node_unfold in Ha.
  destruct (_add_node_cases parse_dn d t)
    as [(e' & He & Hwhy)|(cs & node & tl & t1 & Hp & Hc & Hd & H)].
  - rewrite He in Ha. simpl in Ha. injection Ha as <- <-.
    split; [done|]. destruct Hwhy as [[-> ?]|(-> & ? & ?)]; auto.
  - destruct H as [[Hdata H]|[_ H]]; rewrite H in Ha; simpl in Ha; [|done].
    injection Ha as <- <-.
    apply descend_spec in Hd as (_ & Hg & _ & _ & Hr & Hold & _);
      [|done|rewrite (wf_top _ Hwf); apply (wf_heap _ Hwf)].
    rewrite (grows_data _ _ Hg) in Hdata.
    assert (node < length (heap t)) as Hv.
    { destruct (decide (node < length (heap t))); [done|].
      rewrite deref_stray in Hdata by lia. done. }
    rewrite (Hold Hv) in *. split; [done|]. right. right. eauto 10.
Qed.

(** X5. An [add_node] that raises leaves the tree exactly as it was, and
    raises one of three things: [TreePetrifiedError] on a petrified tree,
    the parser's error on a name it rejects, [TypeError] when the path
    leads to a node with a truthy payload. *)
Theorem add_node_raise_leaves_tree evs t d is_leaf e t' :
  history parse_dn evs t →
  add_node parse_dn d is_leaf t = (Raise e, t') →
  t' = t ∧
  (e = TreePetrifiedError ∧ petrified t = true
   ∨ e = LDAPInvalidDnError ∧ petrified t = false ∧ parse_dn (dn d) = None
   ∨ e = TypeError ∧ petrified t = false ∧
     ∃ components node,
       parse_dn (dn d) = Some components ∧
       resolve (normalize components) (top t) t = Some node ∧
       py_bool (data (t@node)) = true).
Proof.
  intros Hh Ha. eapply add_node_raise_wf; [|done]. by eapply history_wf.
Qed.

(** X6. A successful insertion creates one node for each segment of the
    path that was not there yet, and none when the whole path was. *)
Theorem add_node_creates_missing_nodes evs t d is_leaf node t1 components :
  history parse_dn evs t →
  _add_node parse_dn d t = (Ok node, t1) →
  parse_dn (dn d) = Some components →
  length (heap (add_node parse_dn d is_leaf t).2)
  + length (trail (normalize components) (top t) t)
  = length (heap t) + length (normalize components).
Proof.
  intros Hh Ha Hc. pose proof (history_wf _ _ _ Hh) as Hwf.
  destruct (_add_node_Ok _ _ _ _ _ Hwf Ha)
    as (cs & tl & t2 & Hc' & _ & Hd & _ & _ & -> & _).
  assert (cs = components) as -> by congruence.
  apply descend_length in Hd; [|done|by eapply history_top].
  rewrite add_node_unfold, Ha. simpl.
  destruct is_leaf; simpl; rewrite ?length_insert; done.
Qed.

Lemma add_node_frame_wf t d is_leaf node t1 :
  wf t →
  _add_node parse_dn d t = (Ok node, t1) →
  (∀ a, a ≠ node →
     data ((add_node parse_dn d is_leaf t).2@a) = data (t@a) ∧
     toplevel ((add_node parse_dn d is_leaf t).2@a) = toplevel (t@a) ∧
     descendants ((add_node parse_dn d is_leaf t).2@a) = descendants (t@a) ∧
     (a < length (heap t) →
      parent ((add_node parse_dn d is_leaf t).2@a) = parent (t@a))) ∧
  nodes_with_data (add_node parse_dn d is_leaf t).2
  = {[node]} ∪ nodes_with_data t ∧
  branches (add_node parse_dn d is_leaf t).2
  = (if is_leaf then branches t else {[node]} ∪ branches t) ∧
  petrified (add_node parse_dn d is_leaf t).2 = petrified t.
Proof.
  intros Hwf Ha.
  destruct (_add_node_Ok _ _ _ _ _ Hwf Ha)
    as (cs & tl & t2 & _ & _ & Hd & _ & _ & Ht1 & _).
  apply descend_spec in Hd as (_ & Hg & _);
    [|done|rewrite (wf_top _ Hwf); apply (wf_heap _ Hwf)].
  assert (Hother : ∀ a, a ≠ node → t1@a = t2@a).
  { intros a Hne. by rewrite Ht1, deref_register_data, deref_update_ne. }
  assert (Hfinal : ∀ a, a ≠ node →
            (add_node parse_dn d is_leaf t).2@a = t2@a).
  { intros a Hne. rewrite add_node_unfold, Ha. simpl. destruct is_leaf.
    - by apply Hother.
    - rewrite deref_register_branch, deref_update_ne by done.
      by apply Hother. }
  split_and!.
  - intros a Hne. rewrite (Hfinal _ Hne).
    split_and!; [apply (grows_data _ _ Hg)|apply (grows_toplevel _ _ Hg)
                |apply (grows_descendants _ _ Hg)|apply (grows_parent _ _ Hg)].
  - rewrite add_node_unfold, Ha. simpl.
    assert (nodes_with_data t1 = {[node]} ∪ nodes_with_data t) as Hn.
    { rewrite Ht1. simpl. by rewrite (grows_data_set _ _ Hg). }
    by destruct is_leaf.
  - rewrite add_node_unfold, Ha. simpl.
    assert (branches t1 = branches t) as Hb.
    { rewrite Ht1. simpl. by rewrite (grows_branches _ _ Hg). }
    destruct is_leaf; [done|]. simpl. by rewrite Hb.
  - by apply add_node_petrified_same.
Qed.

(** X7. A successful insertion assigns to its destination only: every
    other node keeps its data, its flag, its descendants and its parent;
    the destination joins [__nodes_with_data], and [__branches] when it
    is not a leaf. *)
Theorem add_node_touches_destination_only evs t d is_leaf node t1 :
  history parse_dn evs t →
  _add_node parse_dn d t = (Ok node, t1) →
  (∀ a, a ≠ node →
     data ((add_node parse_dn d is_leaf t).2@a) = data (t@a) ∧
     toplevel ((add_node parse_dn d is_leaf t).2@a) = toplevel (t@a) ∧
     descendants ((add_node parse_dn d is_leaf t).2@a) = descendants (t@a) ∧
     (a < length (heap t) →
      parent ((add_node parse_dn d is_leaf t).2@a) = parent (t@a))) ∧
  nodes_with_data (add_node parse_dn d is_leaf t).2
  = {[node]} ∪ nodes_with_data t ∧
  branches (add_node parse_dn d is_leaf t).2
  = (if is_leaf then branches t else {[node]} ∪ branches t) ∧
  petrified (add_node parse_dn d is_leaf t).2 = petrified t.
Proof.
  intros Hh Ha. eapply add_node_frame_wf; [|done]. by eapply history_wf.
Qed.

(** X8. On every tree the module builds, [__nodes_with_data] holds the
    nodes whose [data] is not [None], no others, and every member of
    [__branches] is among them. *)
Theorem history_data_nodes evs t :
  history parse_dn evs t →
  (∀ a, a ∈ nodes_with_data t ↔ data (t@a) ≠ None) ∧
  branches t ⊆ nodes_with_data t.
Proof.
  unfold history. intros H. remember LdapTree__init__ as t0 eqn:Ht0.
  induction H as [|t0 evs t' d is_leaf H IH|t0 evs t' order r t'' H IH _ Hi].
  - subst. split; [|done]. intros a. split; [set_solver|].
    destruct a as [|a]; [done|]. rewrite deref_stray by (simpl; lia). done.
  - specialize (IH Ht0) as [IHd IHb]. subst t0.
    pose proof (history_wf _ _ _ H) as Hwf.
    destruct (_add_node parse_dn d t') as [[node|e] t1] eqn:Ha.
    + pose proof (add_node_frame_wf _ _ is_leaf _ _ Hwf Ha)
        as (Hother & Hn & Hb & _).
      destruct (_add_node_Ok _ _ _ _ _ Hwf Ha) as (cs & ? & ? & Hc & _).
      destruct (add_node_Ok parse_dn d is_leaf _ _ _ _ Hwf Ha Hc)
        as (_ & Hdata & _).
      split.
      * intros a. rewrite Hn, elem_of_union, elem_of_singleton.
        destruct (decide (a = node)) as [->|Hne].
        -- rewrite Hdata. split; [done|auto].
        -- destruct (Hother _ Hne) as (-> & _). rewrite <- IHd. tauto.
      * rewrite Hn, Hb. destruct is_leaf.
        -- etrans; [exact IHb|]. apply union_subseteq_r.
        -- by apply union_mono_l.
    + assert (add_node parse_dn d is_leaf t' = (Raise e, t1)) as Hadd.
      { by rewrite add_node_unfold, Ha. }
      destruct (add_node_raise_wf _ _ _ _ _ Hwf Hadd) as [-> _].
      rewrite Hadd. done.
  - specialize (IH Ht0) as [IHd IHb]. subst t0.
    destruct (__iter___frame _ _ _ _ Hi) as (Hb & Hdata & _).
    destruct (__iter___settles _ _ _ _ Hi) as (t1 & Hs & Ht1).
    assert (nodes_with_data t'' = nodes_with_data t') as Hn.
    { destruct Ht1 as [->| ->]; apply (settles_data_set _ _ Hs). }
    rewrite Hn, Hb. split; [|done]. intros a. by rewrite Hdata.
Qed.

End MoreInsertion.

(** ** The tree under the store *)

Lemma linked_init : linked LdapTree__init__.
Proof.
  assert (∀ a, children (LdapTree__init__@a) = ∅) as Hc.
  { intros [|a]; [done|]. by rewrite deref_stray by (simpl; lia). }
  assert (∀ a, parent (LdapTree__init__@a) = None) as Hp.
  { intros [|a]; [done|]. by rewrite deref_stray by (simpl; lia). }
  constructor.
  - intros p name c. by rewrite Hc.
  - intros a p. by rewrite Hp.
  - intros p n1 n2 c. by rewrite Hc.
Qed.

Lemma linked_same t t' :
  (∀ a, parent (t'@a) = parent (t@a)) →
  (∀ a, children (t'@a) = children (t@a)) →
  linked t → linked t'.
Proof.
  intros Hp Hc []. constructor.
  - intros p name c. rewrite Hc, Hp. eauto.
  - intros a p. rewrite Hp. setoid_rewrite Hc. eauto.
  - intros p n1 n2 c. rewrite Hc. eauto.
Qed.

Lemma parent_lt t a p : wf t → parent (t@a) = Some p → p < a.
Proof.
  intros Hwf Hp. destruct (decide (0 < a < length (heap t))) as [Ha|Ha].
  - destruct (wf_parent _ Hwf a Ha) as (p' & Hp' & Hlt). congruence.
  - destruct (decide (a = 0)) as [->|]; [by rewrite (wf_root _ Hwf) in Hp|].
    rewrite deref_stray in Hp by lia. done.
Qed.

Lemma linked_created name node t :
  wf t → linked t → node < length (heap t) →
  children (t@node) !! name = None →
  linked (update node (set_child name (length (heap t)))
            (alloc (LdapNode__init__ (Some node)) t).2).
Proof.
  intros Hwf [Hch Hpa Hna] Hv Hnone. constructor.
  - intros p k c. rewrite !(deref_created _ _ _ _ Hv).
    destruct (decide (p = node)) as [->|Hp]; simpl.
    + destruct (decide (name = k)) as [->|Hk].
      * rewrite lookup_insert_eq. intros [= <-].
        rewrite decide_False by lia. by rewrite decide_True.
      * rewrite lookup_insert_ne by done. intros Hc.
        pose proof (wf_children _ Hwf _ _ _ Hc).
        rewrite !decide_False by lia. eauto.
    + destruct (decide (p = length (heap t))) as [->|Hp']; [done|].
      intros Hc. pose proof (wf_children _ Hwf _ _ _ Hc).
      destruct (decide (c = node)) as [->|]; [simpl; eauto|].
      rewrite decide_False by lia. eauto.
  - intros a p. rewrite (deref_created _ _ _ a Hv).
    destruct (decide (a = node)) as [->|Ha]; simpl.
    + intros Hp. destruct (Hpa _ _ Hp) as [k Hk]. exists k.
      pose proof (parent_lt _ _ _ Hwf Hp).
      rewrite (deref_created _ _ _ p Hv). by rewrite !decide_False by lia.
    + destruct (decide (a = length (heap t))) as [->|Ha'].
      * intros [= <-]. exists name. rewrite (deref_created _ _ _ node Hv).
        rewrite decide_True by done. simpl. apply lookup_insert_eq.
      * intros Hp. destruct (Hpa _ _ Hp) as [k Hk]. exists k.
        pose proof (wf_children _ Hwf _ _ _ Hk).
        rewrite (deref_created _ _ _ p Hv).
        destruct (decide (p = node)) as [->|]; simpl.
        -- rewrite lookup_insert_ne; [done|]. intros <-. congruence.
        -- by rewrite decide_False by lia.
  - intros p n1 n2 c. rewrite (deref_created _ _ _ p Hv).
    destruct (decide (p = node)) as [->|Hp]; simpl.
    + destruct (decide (name = n1)) as [<-|H1];
        destruct (decide (name = n2)) as [<-|H2]; [done|..];
        rewrite ?lookup_insert_eq, ?lookup_insert_ne by done.
      * intros [= <-] Hc. pose proof (wf_children _ Hwf _ _ _ Hc). lia.
      * intros Hc [= <-]. pose proof (wf_children _ Hwf _ _ _ Hc). lia.
      * eauto.
    + destruct (decide (p = length (heap t))); [done|eauto].
Qed.

Lemma linked_descend names : ∀ node tl t n' tl' t1,
  wf t → linked t → node < length (heap t) →
  descend names node tl t = (n', tl', t1) → linked t1.
Proof.
  induction names as [|name rest IH]; intros node tl t n' tl' t1 Hwf Hl Hv Hd.
  { simpl in Hd. by injection Hd as <- <- <-. }
  cbn [descend] in Hd.
  destruct (children (t@node) !! name) as [c|] eqn:Hc.
  - rewrite (select_or_create_found _ _ _ _ Hc) in Hd.
    cbv beta iota zeta in Hd.
    pose proof (wf_children _ Hwf _ _ _ Hc) as [Hlt Hcv]. eauto.
  - rewrite (select_or_create_new _ _ _ Hc) in Hd.
    cbv beta iota zeta in Hd.
    pose proof (length_created name node t) as Hlen.
    eapply IH in Hd; [done|by apply wf_created|by apply linked_created|lia].
Qed.

Section Linked.

Variable parse_dn : string → option (list component).

Lemma linked_add_node d is_leaf t :
  wf t → linked t → linked (add_node parse_dn d is_leaf t).2.
Proof.
  intros Hwf Hl.
  assert (linked (_add_node parse_dn d t).2) as Hl1.
  { destruct (_add_node_cases parse_dn d t)
      as [(e & -> & _)|(cs & node & tl & t1 & _ & _ & Hd & H)]; [done|].
    apply linked_descend in Hd;
      [|done..|rewrite (wf_top _ Hwf); apply (wf_heap _ Hwf)].
    destruct H as [[_ ->]|[_ ->]]; [done|]. simpl.
    eapply linked_same; [| |exact Hd]; intros a;
      by rewrite deref_register_data, update_field. }
  rewrite add_node_unfold.
  destruct (_add_node parse_dn d t).1 as [node|e]; [|done].
  destruct is_leaf; [done|]. cbn [snd].
  eapply linked_same; [| |exact Hl1]; intros a;
    by rewrite deref_register_branch, update_field.
Qed.

Lemma history_linked evs t : history parse_dn evs t → linked t.
Proof.
  unfold history. intros H. remember LdapTree__init__ as t0 eqn:Ht0.
  induction H as [|t0 evs t' d is_leaf H IH|t0 evs t' order r t'' H IH _ Hi].
  - subst. apply linked_init.
  - specialize (IH Ht0). subst t0.
    apply linked_add_node; [by eapply history_wf|done].
  - specialize (IH Ht0). subst t0.
    destruct (__iter___settles _ _ _ _ Hi) as (t1 & Hs & Ht1).
    eapply linked_same; [| |exact IH]; intros a;
      destruct Ht1 as [->| ->]; rewrite ?deref_set_petrified;
      [apply (settles_parent _ _ Hs)..|apply (settles_children _ _ Hs)
      |apply (settles_children _ _ Hs)].
Qed.

End Linked.

Lemma resolve_ancestor t names : ∀ node a,
  linked t → resolve names node t = Some a →
  ancestor t a (length names) = Some node.
Proof.
  induction names as [|name rest IH]; intros node a Hl Hr; simpl in Hr.
  { by injection Hr as <-. }
  destruct (children (t@node) !! name) as [c|] eqn:Hc; [|done].
  simpl. rewrite (IH _ _ Hl Hr). simpl. unfold parent_of.
  by apply (linked_child _ Hl _ name).
Qed.

Lemma resolve_app t names1 names2 node :
  resolve (names1 ++ names2) node t
  = resolve names1 node t ≫= λ b, resolve names2 b t.
Proof.
  revert node. induction names1 as [|name rest IH]; intros node; [done|].
  simpl. destruct (children (t@node) !! name); [apply IH|done].
Qed.

Lemma ancestor_lt t a : ∀ k1 k2 b1 b2,
  wf t → k1 < k2 →
  ancestor t a k1 = Some b1 → ancestor t a k2 = Some b2 → b2 < b1.
Proof.
  intros k1 k2. induction k2 as [|k2 IH]; intros b1 b2 Hwf Hlt H1 H2; [lia|].
  simpl in H2. destruct (ancestor t a k2) as [m|] eqn:Hm; [|done].
  simpl in H2. apply (parent_lt _ _ _ Hwf) in H2.
  destruct (decide (k1 = k2)) as [->|].
  - assert (m = b1) as -> by congruence. done.
  - assert (m < b1) by (eapply IH; [done|lia|done..]). lia.
Qed.

Lemma ancestor_inj t a k1 k2 b :
  wf t → ancestor t a k1 = Some b → ancestor t a k2 = Some b → k1 = k2.
Proof.
  intros Hwf H1 H2.
  destruct (decide (k1 < k2)) as [Hlt|].
  { pose proof (ancestor_lt _ _ _ _ _ _ Hwf Hlt H1 H2). lia. }
  destruct (decide (k2 < k1)) as [Hlt|]; [|lia].
  pose proof (ancestor_lt _ _ _ _ _ _ Hwf Hlt H2 H1). lia.
Qed.

Lemma resolve_inj t names1 : ∀ names2 node a,
  wf t → linked t →
  resolve names1 node t = Some a → resolve names2 node t = Some a →
  names1 = names2.
Proof.
  induction names1 as [|x rest1 IH]; intros names2 node a Hwf Hl H1 H2.
  - pose proof (resolve_ancestor _ _ _ _ Hl H1) as A1.
    pose proof (resolve_ancestor _ _ _ _ Hl H2) as A2.
    pose proof (ancestor_inj _ _ _ _ _ Hwf A1 A2) as Hlen.
    destruct names2; [done|simpl in Hlen; lia].
  - pose proof (resolve_ancestor _ _ _ _ Hl H1) as A1.
    pose proof (resolve_ancestor _ _ _ _ Hl H2) as A2.
    pose proof (ancestor_inj _ _ _ _ _ Hwf A1 A2) as Hlen.
    destruct names2 as [|y rest2]; [simpl in Hlen; lia|].
    simpl in H1, H2, Hlen.
    destruct (children (t@node) !! x) as [c1|] eqn:Hc1; [|done].
    destruct (children (t@node) !! y) as [c2|] eqn:Hc2; [|done].
    pose proof (resolve_ancestor _ _ _ _ Hl H1) as B1.
    pose proof (resolve_ancestor _ _ _ _ Hl H2) as B2.
    assert (c1 = c2) as <- by (injection Hlen as Hlen; congruence).
    rewrite (linked_name _ Hl _ _ _ _ Hc1 Hc2). f_equal. eauto.
Qed.

Lemma resolve_exists t a :
  wf t → linked t → a < length (heap t) →
  ∃ names, resolve names 0 t = Some a.
Proof.
  intros Hwf Hl. induction (lt_wf a) as [a _ IH]. intros Hv.
  destruct (decide (a = 0)) as [->|Hne]; [by exists []|].
  destruct (wf_parent _ Hwf a) as (p & Hp & Hlt); [lia|].
  destruct (linked_parent _ Hl _ _ Hp) as [name Hname].
  destruct (IH p) as [names Hnames]; [lia..|].
  exists (names ++ [name]). rewrite resolve_app, Hnames. simpl.
  by rewrite Hname.
Qed.

Section Paths.

Variable parse_dn : string → option (list component).

(** X9. Down and up agree: from the node a path of [k] segments leads
    to, [k] steps along [parent] lead back to the root. *)
Theorem path_length_is_depth evs t names a :
  history parse_dn evs t →
  resolve names (top t) t = Some a →
  ancestor t a (length names) = Some (top t).
Proof.
  intros Hh Hr. apply resolve_ancestor; [by eapply history_linked|done].
Qed.

(** X10. Every node of the store is reached from the root by one path,
    and one only. *)
Theorem every_node_has_one_path evs t a :
  history parse_dn evs t →
  a < length (heap t) →
  ∃ names, resolve names (top t) t = Some a ∧
           ∀ names', resolve names' (top t) t = Some a → names' = names.
Proof.
  intros Hh Hv. pose proof (history_wf _ _ _ Hh) as Hwf.
  pose proof (history_linked _ _ _ Hh) as Hl.
  rewrite (wf_top _ Hwf).
  destruct (resolve_exists _ _ Hwf Hl Hv) as [names Hnames].
  exists names. split; [done|]. intros names' H'.
  by eapply resolve_inj.
Qed.

End Paths.

(** ** What has been inserted stays *)

Lemma resolve_mono names : ∀ node t t' a,
  (∀ b name c, children (t@b) !! name = Some c →
               children (t'@b) !! name = Some c) →
  resolve names node t = Some a → resolve names node t' = Some a.
Proof.
  induction names as [|name rest IH]; intros node t t' a Hm Hr; [done|].
  simpl in *. destruct (children (t@node) !! name) as [c|] eqn:Hc; [|done].
  rewrite (Hm _ _ _ Hc). eauto.
Qed.

Section Persistence.

Variable parse_dn : string → option (list component).

Lemma add_node_children_kept d is_leaf t b name c :
  wf t → children (t@b) !! name = Some c →
  children ((add_node parse_dn d is_leaf t).2@b) !! name = Some c.
Proof.
  intros Hwf Hc.
  assert (children ((_add_node parse_dn d t).2@b) !! name = Some c) as H1.
  { destruct (_add_node_cases parse_dn d t)
      as [(e & -> & _)|(cs & node & tl & t1 & _ & _ & Hd & H)]; [done|].
    apply descend_spec in Hd as (_ & Hg & _);
      [|done|rewrite (wf_top _ Hwf); apply (wf_heap _ Hwf)].
    destruct H as [[_ ->]|[_ ->]]; simpl.
    - by apply (grows_children _ _ Hg).
    - rewrite deref_register_data, update_field by done.
      by apply (grows_children _ _ Hg). }
  rewrite add_node_unfold.
  destruct (_add_node parse_dn d t).1 as [node|e]; [|done].
  destruct is_leaf; [done|]. cbn [snd].
  by rewrite children_register_branch.
Qed.

Lemma add_node_top d is_leaf t :
  wf t → top (add_node parse_dn d is_leaf t).2 = top t.
Proof.
  intros Hwf. rewrite (wf_top _ (wf_add_node parse_dn d is_leaf t Hwf)).
  by rewrite (wf_top _ Hwf).
Qed.

Lemma steps_app t evs1 t1 evs2 t2 :
  steps parse_dn t evs1 t1 → steps parse_dn t1 evs2 t2 →
  steps parse_dn t (evs1 ++ evs2) t2.
Proof.
  intros H1 H2.
  induction H2 as [|t1 evs t' d is_leaf H IH|t1 evs t' order r t'' H IH Hp Hi].
  - by rewrite app_nil_r.
  - rewrite (assoc_L (++)). apply steps_add. by apply IH.
  - rewrite (assoc_L (++)). eapply steps_iter; [by apply IH|done..].
Qed.

Lemma steps_resolve t evs t' names a :
  steps parse_dn t evs t' → wf t →
  resolve names (top t) t = Some a → resolve names (top t') t' = Some a.
Proof.
  induction 1 as [|t evs t' d is_leaf H IH|t evs t' order r t'' H IH _ Hi];
    intros Hwf Hr; [done| |].
  - pose proof (steps_wf _ _ _ _ H Hwf) as Hwf'.
    rewrite add_node_top by done.
    eapply resolve_mono; [|by apply IH].
    intros b name c. by apply add_node_children_kept.
  - destruct (__iter___settles _ _ _ _ Hi) as (t1 & Hs & Ht1).
    assert (top t'' = top t') as ->.
    { destruct Ht1 as [->| ->]; apply (settles_top _ _ Hs). }
    erewrite resolve_children; [by apply IH|]. intros b.
    destruct Ht1 as [->| ->]; apply (settles_children _ _ Hs).
Qed.

Lemma steps_truthy_kept t evs t' a :
  steps parse_dn t evs t' → wf t →
  py_bool (data (t@a)) = true → data (t'@a) = data (t@a).
Proof.
  induction 1 as [|t evs t' d is_leaf H IH|t evs t' order r t'' H IH _ Hi];
    intros Hwf Ha; [done| |].
  - pose proof (steps_wf _ _ _ _ H Hwf) as Hwf'.
    rewrite add_node_truthy_kept; [auto|done|]. by rewrite IH.
  - destruct (__iter___frame _ _ _ _ Hi) as (_ & Hdata & _).
    rewrite Hdata. auto.
Qed.

Lemma steps_data_set_kept t evs t' a :
  steps parse_dn t evs t' → wf t →
  a ∈ nodes_with_data t → a ∈ nodes_with_data t'.
Proof.
  induction 1 as [|t evs t' d is_leaf H IH|t evs t' order r t'' H IH _ Hi];
    intros Hwf Ha; [done| |].
  - pose proof (steps_wf _ _ _ _ H Hwf) as Hwf'. specialize (IH Hwf Ha).
    destruct (_add_node parse_dn d t') as [[node|e] t1] eqn:Hadd.
    + destruct (add_node_frame_wf _ _ _ is_leaf _ _ Hwf' Hadd) as (_ & -> & _).
      apply elem_of_union. by right.
    + assert (add_node parse_dn d is_leaf t' = (Raise e, t1)) as Hr.
      { by rewrite add_node_unfold, Hadd. }
      destruct (add_node_raise_wf _ _ _ _ _ _ Hwf' Hr) as [-> _].
      by rewrite Hr.
  - destruct (__iter___settles _ _ _ _ Hi) as (t1 & Hs & Ht1).
    destruct Ht1 as [->| ->]; simpl; rewrite (settles_data_set _ _ Hs); auto.
Qed.

(** X11. An entry with a truthy payload, once inserted, is there for
    good: after any further calls its path still leads to the same node,
    the node still holds that payload and is still in
    [__nodes_with_data]. *)
Theorem inserted_entry_stays evs t d is_leaf node t1 components evs' t' :
  history parse_dn evs t →
  truth d = true →
  _add_node parse_dn d t = (Ok node, t1) →
  parse_dn (dn d) = Some components →
  steps parse_dn (add_node parse_dn d is_leaf t).2 evs' t' →
  resolve (normalize components) (top t') t' = Some node ∧
  data (t'@node) = Some d ∧
  node ∈ nodes_with_data t'.
Proof.
  intros Hh Htruth Ha Hc Hsteps.
  pose proof (history_wf _ _ _ Hh) as Hwf.
  pose proof (wf_add_node parse_dn d is_leaf t Hwf) as Hwf1.
  destruct (add_node_Ok parse_dn d is_leaf _ _ _ _ Hwf Ha Hc)
    as (Hr & Hd & _).
  assert (data (t'@node) = Some d) as Hd'.
  { rewrite (steps_truthy_kept _ _ _ _ Hsteps Hwf1); [done|].
    by rewrite Hd. }
  split_and!; [by eapply steps_resolve|done|].
  apply (steps_data_set_kept _ _ _ _ Hsteps Hwf1).
  destruct (add_node_frame_wf _ _ _ is_leaf _ _ Hwf Ha) as (_ & -> & _).
  apply elem_of_union. left. by apply elem_of_singleton.
Qed.

End Persistence.

(** ** What the analysis pass leaves, exactly *)

Lemma adopted_descendants B' node t B :
  descendants ((adopted B' node t)@B)
  = if decide (B = B')
    then (λ s, {[node]} ∪ s) <$> descendants (t@B)
    else descendants (t@B).
Proof.
  unfold adopted. rewrite deref_update. case_decide as H.
  - destruct H as [-> _]. rewrite decide_True by done.
    unfold descendants_add. rewrite !update_field by done.
    destruct (descendants (t@B)) as [s|] eqn:Hs; [done|].
    by rewrite update_field.
  - rewrite update_field by done. case_decide as HB; [|done].
    subst B'. rewrite deref_stray; [done|].
    rewrite length_update in H. lia.
Qed.

Lemma adopted_toplevel B node t :
  nearest t node B → toplevel ((adopted B node t)@node) = false.
Proof.
  intros HB. apply adopted_result; [by eapply nearest_parent|].
  by destruct HB as (_ & _ & [_ ?] & _).
Qed.

(** After a pass that returned: the flags still on are those that were
    on, less the visited nodes that have a branch with data above them;
    a [descendants] set holds what it held, plus the visited nodes whose
    flag was on and whose nearest such branch is its owner. *)
Lemma analyze_all_exact fuel order : ∀ t t',
  analyze_all fuel order t = Some (Ok (), t') →
  (∀ a, toplevel (t'@a) = true ↔
        toplevel (t@a) = true ∧ ¬ (a ∈ order ∧ ∃ B, nearest t a B)) ∧
  (∀ B s, descendants (t@B) = Some s →
     ∃ s', descendants (t'@B) = Some s' ∧
           ∀ n, n ∈ s' ↔
                n ∈ s ∨ (n ∈ order ∧ toplevel (t@n) = true ∧ nearest t n B)).
Proof.
  induction order as [|node rest IH]; intros t t' Ha; simpl in Ha.
  { injection Ha as <-. split.
    - intros a. split; [|tauto]. intros ?. split; [done|].
      intros [[]%elem_of_nil _].
    - intros B s Hs. exists s. split; [done|]. intros n. split; [auto|].
      intros [?|[[]%elem_of_nil _]]. done. }
  destruct (analyze fuel node t) as [[[[]|e] t1]|] eqn:Hn; [|done..].
  pose proof (settles_analyze _ _ _ _ _ Hn) as Hs1.
  destruct (IH _ _ Ha) as [IHt IHd]. clear IH.
  apply analyze_spec in Hn
    as [(_ & -> & Hwhy)|[(? & _)|(_ & Htl & B' & HB' & ->)]]; [|done|].
  - (* nothing moved for [node] *)
    assert (Hnot : toplevel (t@node) = true → ¬ ∃ B, nearest t node B).
    { intros Htl [B HB]. destruct Hwhy as [?|Hno]; [congruence|].
      by apply (nearest_qualifying _ _ _ HB). }
    split.
    + intros a. rewrite IHt. split; intros [Htl Hno]; (split; [done|]).
      * intros [[->|Hin]%elem_of_cons Hex]; [by apply Hnot|auto].
      * intros [Hin Hex]. apply Hno. split; [by right|done].
    + intros B s Hs. destruct (IHd _ _ Hs) as (s' & -> & Hiff).
      exists s'. split; [done|]. intros n. rewrite Hiff.
      split; (intros [?|(Hin & Htl & HB)]; [by left|]).
      * right. split; [by right|done].
      * apply elem_of_cons in Hin as [->|Hin]; [|auto].
        destruct (Hnot Htl). eauto.
  - (* [node] went to [B'] *)
    pose proof (adopted_toplevel _ _ _ HB') as Hoff.
    split.
    + intros a. rewrite IHt. destruct (decide (a = node)) as [->|Hne].
      * rewrite Hoff. split; [by intros [? _]|].
        intros [_ Hno]. destruct Hno. split; [by left|eauto].
      * rewrite adopted_toplevel_other by done.
        setoid_rewrite (nearest_settles _ _ _ _ Hs1).
        rewrite elem_of_cons. split; intros [? Hno]; (split; [done|]);
          intros [Hin Hex]; apply Hno; (split; [|done]); tauto.
    + intros B s Hs.
      pose proof (adopted_descendants B' node t B) as Hd1. rewrite Hs in Hd1.
      simpl in Hd1.
      destruct (IHd B (if decide (B = B') then {[node]} ∪ s else s))
        as (s' & Hs' & Hiff); [by case_decide|].
      exists s'. split; [done|]. intros n. rewrite Hiff. clear Hiff.
      setoid_rewrite (nearest_settles _ _ _ _ Hs1). rewrite elem_of_cons.
      destruct (decide (n = node)) as [->|Hne].
      * rewrite Hoff. case_decide as HBB.
        -- subst B'. rewrite elem_of_union, elem_of_singleton. split; [|tauto].
           intros _. right. auto.
        -- split; [intros [?|(_ & ? & _)]; [by left|done]|].
           intros [?|(_ & _ & HB)]; [by left|].
           destruct HBB. by eapply nearest_unique.
      * rewrite adopted_toplevel_other by done. case_decide as HBB.
        -- rewrite elem_of_union, elem_of_singleton. tauto.
        -- tauto.
Qed.


(** ** The root, and the order of the visit *)

Lemma LdapNode_eq n1 n2 :
  parent n1 = parent n2 → children n1 = children n2 →
  descendants n1 = descendants n2 → data n1 = data n2 →
  toplevel n1 = toplevel n2 → n1 = n2.
Proof. destruct n1, n2. simpl. by intros -> -> -> -> ->. Qed.

Lemma LdapTree_eq t1 t2 :
  heap t1 = heap t2 → top t1 = top t2 →
  nodes_with_data t1 = nodes_with_data t2 → branches t1 = branches t2 →
  petrified t1 = petrified t2 → t1 = t2.
Proof. destruct t1, t2. simpl. by intros -> -> -> -> ->. Qed.

Lemma heap_eq t1 t2 :
  length (heap t1) = length (heap t2) → (∀ a, t1@a = t2@a) →
  heap t1 = heap t2.
Proof.
  intros Hlen Hd. apply list_eq. intros i.
  destruct (decide (i < length (heap t1))) as [Hi|Hi].
  - destruct (lookup_lt_is_Some_2 (heap t1) i Hi) as [x1 H1].
    destruct (lookup_lt_is_Some_2 (heap t2) i) as [x2 H2]; [lia|].
    rewrite H1, H2. f_equal.
    rewrite <- (deref_lookup _ _ _ H1), <- (deref_lookup _ _ _ H2). apply Hd.
  - rewrite !lookup_ge_None_2 by lia. done.
Qed.

Lemma analyze_all_order fuel1 fuel2 order1 order2 t t1 t2 :
  (∀ n, n ∈ order1 ↔ n ∈ order2) →
  analyze_all fuel1 order1 t = Some (Ok (), t1) →
  analyze_all fuel2 order2 t = Some (Ok (), t2) →
  t1 = t2.
Proof.
  intros Hin H1 H2.
  pose proof (settles_analyze_all _ _ _ _ _ H1) as S1.
  pose proof (settles_analyze_all _ _ _ _ _ H2) as S2.
  destruct (analyze_all_exact _ _ _ _ H1) as [T1 D1].
  destruct (analyze_all_exact _ _ _ _ H2) as [T2 D2].
  apply LdapTree_eq.
  - apply heap_eq.
    { by rewrite (settles_length _ _ S1), (settles_length _ _ S2). }
    intros a. apply LdapNode_eq.
    + by rewrite (settles_parent _ _ S1), (settles_parent _ _ S2).
    + by rewrite (settles_children _ _ S1), (settles_children _ _ S2).
    + pose proof (settles_descendants _ _ S1 a) as E1.
      pose proof (settles_descendants _ _ S2 a) as E2.
      destruct (descendants (t@a)) as [s|] eqn:Hs; [|congruence].
      destruct (D1 _ _ Hs) as (s1 & -> & I1).
      destruct (D2 _ _ Hs) as (s2 & -> & I2).
      f_equal. apply set_eq. intros n. rewrite I1, I2.
      by setoid_rewrite Hin.
    + by rewrite (settles_data _ _ S1), (settles_data _ _ S2).
    + specialize (T1 a). specialize (T2 a). setoid_rewrite Hin in T1.
      destruct (toplevel (t1@a)), (toplevel (t2@a)); try done.
      * symmetry. apply T2, T1. done.
      * apply T1, T2. done.
  - by rewrite (settles_top _ _ S1), (settles_top _ _ S2).
  - by rewrite (settles_data_set _ _ S1), (settles_data_set _ _ S2).
  - by rewrite (settles_branches _ _ S1), (settles_branches _ _ S2).
  - by rewrite (settles_petrified _ _ S1), (settles_petrified _ _ S2).
Qed.

Lemma analyze_all_root_toplevel fuel order : ∀ t r t',
  analyze_all fuel order t = Some (r, t') → parent (t@0) = None →
  toplevel (t'@0) = toplevel (t@0).
Proof.
  induction order as [|node rest IH]; intros t r t' Ha Hroot; simpl in Ha.
  { by injection Ha as <- <-. }
  destruct (analyze fuel node t) as [[r1 t1]|] eqn:Hn; [|done].
  assert (toplevel (t1@0) = toplevel (t@0) ∧ parent (t1@0) = None)
    as [Ht1 Hp1].
  { split; [|by rewrite (settles_parent _ _ (settles_analyze _ _ _ _ _ Hn))].
    apply analyze_spec in Hn
      as [(_ & -> & _)|[(_ & -> & _)|(_ & _ & B & HB & ->)]]; [done..|].
    apply adopted_toplevel_other. intros <-.
    by apply nearest_parent in HB. }
  destruct r1 as [[]|e].
  - rewrite <- Ht1. by eapply IH.
  - by injection Ha as <- <-.
Qed.

Lemma analyze_all_root_raises fuel order : ∀ t,
  wf t → toplevel (t@0) = true → 0 ∈ order →
  (∀ n, n ∈ order → n < length (heap t)) → length (heap t) ≤ fuel →
  ∃ t', analyze_all fuel order t = Some (Raise AttributeError, t').
Proof.
  induction order as [|node rest IH]; intros t Hwf Htl Hin Hv Hf.
  { by apply elem_of_nil in Hin. }
  simpl. destruct (decide (node = 0)) as [->|Hne].
  - pose proof (wf_heap _ Hwf). destruct fuel as [|fuel]; [lia|].
    rewrite analyze_root by done. eauto.
  - destruct (analyze_total fuel node t) as [t1 Hn];
      [done|apply Hv; by left|done..|].
    rewrite Hn. pose proof (settles_analyze _ _ _ _ _ Hn) as Hs.
    apply IH.
    + by eapply wf_settles.
    + by rewrite (analyze_toplevel_other _ _ _ _ _ 0 Hn).
    + apply elem_of_cons in Hin as [?|?]; [congruence|done].
    + intros n Hn'. rewrite (settles_length _ _ Hs). apply Hv. by right.
    + by rewrite (settles_length _ _ Hs).
Qed.

Section Root.

Variable parse_dn : string → option (list component).

Lemma resolve_root t names :
  wf t → linked t → resolve names 0 t = Some 0 → names = [].
Proof.
  intros Hwf Hl Hr. by apply (resolve_inj t names [] 0 0 Hwf Hl).
Qed.

(** The root's flag is never turned off. *)
Lemma history_root_toplevel evs t :
  history parse_dn evs t → toplevel (t@0) = true.
Proof.
  unfold history. intros H. remember LdapTree__init__ as t0 eqn:Ht0.
  induction H as [|t0 evs t' d is_leaf H IH|t0 evs t' order r t'' H IH _ Hi].
  - by subst.
  - specialize (IH Ht0). subst t0.
    pose proof (history_wf _ _ _ H) as Hwf.
    destruct (_add_node parse_dn d t') as [[node|e] t1] eqn:Ha.
    + destruct (decide (node = 0)) as [->|Hne].
      * destruct (_add_node_Ok _ _ _ _ _ Hwf Ha)
          as (cs & tl & t2 & Hc & _ & _ & _ & _ & _ & Hr & _ & Htl).
        pose proof (_add_node_toplevel _ _ _ _ _ _ Hwf Ha Hc) as Hfl.
        assert (wf t1) as Hw1.
        { pose proof (wf__add_node parse_dn d t' Hwf) as [Hw _].
          by rewrite Ha in Hw. }
        assert (normalize cs = []) as Hnil.
        { apply (resolve_root t1); [done| |by rewrite (wf_top _ Hw1) in Hr].
          pose proof (linked_add_node parse_dn d true t' Hwf
                        (history_linked _ _ _ H)) as Hl.
          by rewrite add_node_unfold, Ha in Hl. }
        rewrite Hnil in Hfl. simpl in Hfl.
        rewrite add_node_unfold, Ha. simpl. destruct is_leaf; [done|].
        by rewrite deref_register_branch, update_field.
      * destruct (add_node_frame_wf _ _ _ is_leaf _ _ Hwf Ha)
          as (Hother & _).
        destruct (Hother 0) as (_ & -> & _); [done|done].
    + assert (add_node parse_dn d is_leaf t' = (Raise e, t1)) as Hadd.
      { by rewrite add_node_unfold, Ha. }
      destruct (add_node_raise_wf _ _ _ _ _ _ Hwf Hadd) as [-> _].
      by rewrite Hadd.
  - specialize (IH Ht0). subst t0.
    pose proof (history_wf _ _ _ H) as Hwf.
    apply __iter___inv in Hi as [(_ & _ & ->)|[_ [[Hp _]|(e & Hp & _)]]];
      [done| |];
      apply _petrify_inv in Hp as (t1 & Ha & ->);
      rewrite ?deref_set_petrified;
      by rewrite (analyze_all_root_toplevel _ _ _ _ _ Ha (wf_root _ Hwf)).
Qed.

Lemma _petrify_root_raises evs t order :
  history parse_dn evs t → order ≡ₚ elements (nodes_with_data t) →
  0 ∈ nodes_with_data t →
  ∃ t', _petrify order t = Some (Raise AttributeError, t') ∧
        petrified t' = petrified t ∧
        nodes_with_data t' = nodes_with_data t.
Proof.
  intros Hh Hperm Hroot. pose proof (history_wf _ _ _ Hh) as Hwf.
  destruct (analyze_all_root_raises (length (heap t)) order t)
    as [t' Ha]; [done|by eapply history_root_toplevel| | |done|].
  { rewrite Hperm. by apply elem_of_elements. }
  { intros n Hn. rewrite Hperm in Hn. apply elem_of_elements in Hn.
    by apply (wf_data _ Hwf). }
  exists t'. unfold _petrify. rewrite Ha.
  pose proof (settles_analyze_all _ _ _ _ _ Ha) as Hs.
  split_and!; [done|apply (settles_petrified _ _ Hs)
              |apply (settles_data_set _ _ Hs)].
Qed.

(** A petrified tree has nothing on its root. *)
Lemma history_petrified_root evs t :
  history parse_dn evs t → petrified t = true → 0 ∉ nodes_with_data t.
Proof.
  unfold history. intros H. remember LdapTree__init__ as t0 eqn:Ht0.
  induction H as [|t0 evs t' d is_leaf H IH|t0 evs t' order r t'' H IH Hperm Hi].
  - by subst.
  - specialize (IH Ht0). subst t0. intros Hp.
    rewrite add_node_petrified_same in Hp by by eapply history_wf.
    rewrite add_node_petrified by done. auto.
  - specialize (IH Ht0). subst t0. intros Hpet.
    apply __iter___inv in Hi as [(? & _ & ->)|[Hfalse [[Hp _]|(e & Hp & _)]]].
    + auto.
    + intros Hroot.
      assert (0 ∈ nodes_with_data t') as Hroot'.
      { apply _petrify_inv in Hp as (t1 & Ha & ->).
        by rewrite <- (settles_data_set _ _ (settles_analyze_all _ _ _ _ _ Ha)). }
      destruct (_petrify_root_raises _ _ _ H Hperm Hroot') as (? & Hr & _).
      congruence.
    + apply _petrify_inv in Hp as (t1 & Ha & ->).
      rewrite (settles_petrified _ _ (settles_analyze_all _ _ _ _ _ Ha)) in Hpet.
      congruence.
Qed.

(** X13. [__iter__] returns exactly when no entry sits on the root.
    With none it returns the set [__branches] and the tree is petrified;
    with one it raises [AttributeError] and the tree stays unpetrified,
    its entries as they were - so that it can never be iterated. *)
Theorem iter_returns_iff_root_empty evs t order :
  history parse_dn evs t →
  order ≡ₚ elements (nodes_with_data t) →
  (0 ∉ nodes_with_data t →
   ∃ t', __iter__ order t = Some (Ok (branches t), t') ∧
         petrified t' = true) ∧
  (0 ∈ nodes_with_data t →
   ∃ t', __iter__ order t = Some (Raise AttributeError, t') ∧
         petrified t' = false ∧
         nodes_with_data t' = nodes_with_data t).
Proof.
  intros Hh Hperm. pose proof (history_wf _ _ _ Hh) as Hwf. split.
  - intros Hroot. unfold __iter__. destruct (petrified t) eqn:Hp; simpl.
    { eauto. }
    destruct (_petrify_total order t Hwf Hperm Hroot) as [t' Ht'].
    rewrite Ht'. exists t'.
    apply _petrify_inv in Ht' as (t1 & Ha & ->). simpl.
    by rewrite (settles_branches _ _ (settles_analyze_all _ _ _ _ _ Ha)).
  - intros Hroot.
    assert (petrified t = false) as Hp.
    { destruct (petrified t) eqn:Hp; [|done].
      by destruct (history_petrified_root _ _ Hh Hp). }
    destruct (_petrify_root_raises _ _ _ Hh Hperm Hroot)
      as (t' & Hr & Hp' & Hn).
    exists t'. unfold __iter__. rewrite Hp, Hr. simpl.
    split_and!; [done|congruence|done].
Qed.

(** X14. The order in which [_petrify] visits [__nodes_with_data] does
    not show: if the pass returns for one order it returns for every
    other, with the same tree. *)
Theorem petrify_order_irrelevant evs t order1 order2 t1 :
  history parse_dn evs t →
  order1 ≡ₚ elements (nodes_with_data t) →
  order2 ≡ₚ elements (nodes_with_data t) →
  _petrify order1 t = Some (Ok (), t1) →
  _petrify order2 t = Some (Ok (), t1).
Proof.
  intros Hh Hp1 Hp2 H1. pose proof (history_wf _ _ _ Hh) as Hwf.
  assert (0 ∉ nodes_with_data t) as Hroot.
  { intros Hroot.
    destruct (_petrify_root_raises _ _ _ Hh Hp1 Hroot) as (? & Hr & _).
    congruence. }
  destruct (_petrify_total order2 t Hwf Hp2 Hroot) as [t2 H2].
  rewrite H2. do 2 f_equal.
  apply _petrify_inv in H1 as (a1 & A1 & ->).
  apply _petrify_inv in H2 as (a2 & A2 & ->).
  f_equal. symmetry. eapply analyze_all_order; [|done..].
  intros n. by rewrite Hp1, Hp2.
Qed.

End Root.

(** ** An entry inserted under an entry *)

Section Late.

Variable parse_dn : string → option (list component).

Lemma adds_only_app evs1 evs2 :
  adds_only (evs1 ++ evs2) ↔ adds_only evs1 ∧ adds_only evs2.
Proof.
  unfold adds_only. setoid_rewrite elem_of_app. split.
  - intros H. split; intros r Hr; apply (H r); auto.
  - intros [H1 H2] r [?|?]; [by apply (H1 r)|by apply (H2 r)].
Qed.

Lemma adds_only_Add d is_leaf r : adds_only [Add d is_leaf r].
Proof. intros r' Hin. by apply list_elem_of_singleton in Hin. Qed.

(** Until the first [__iter__] the tree is unpetrified and every
    [descendants] set is empty. *)
Lemma history_adds_only evs t :
  history parse_dn evs t → adds_only evs →
  petrified t = false ∧ ∀ a s, descendants (t@a) = Some s → s = ∅.
Proof.
  unfold history. intros H. remember LdapTree__init__ as t0 eqn:Ht0.
  induction H as [|t0 evs t' d is_leaf H IH|t0 evs t' order r t'' H IH _ Hi];
    intros Hadds.
  - subst. split; [done|]. intros [|a] s; [done|].
    by rewrite deref_stray by (simpl; lia).
  - apply adds_only_app in Hadds as [Hadds _].
    specialize (IH Ht0 Hadds) as [IHp IHd]. subst t0.
    pose proof (history_wf _ _ _ H) as Hwf.
    split; [by rewrite add_node_petrified_same|].
    destruct (_add_node_frame parse_dn d t' Hwf) as (_ & _ & Hdesc).
    intros a s. rewrite add_node_unfold.
    destruct (_add_node parse_dn d t') as [[node|e] t1]; simpl in *;
      [|rewrite Hdesc; apply IHd].
    destruct is_leaf; [rewrite Hdesc; apply IHd|].
    rewrite deref_register_branch, deref_update. case_decide.
    + simpl. by intros [= <-].
    + rewrite Hdesc. apply IHd.
  - destruct (Hadds r). apply elem_of_app. right.
    by apply list_elem_of_singleton.
Qed.

(** While only insertions are made, a node that holds a truthy payload
    keeps its flag. *)
Lemma steps_adds_toplevel_kept t evs t' n :
  steps parse_dn t evs t' → adds_only evs → wf t →
  py_bool (data (t@n)) = true → toplevel (t'@n) = toplevel (t@n).
Proof.
  induction 1 as [|t evs t' d is_leaf H IH|t evs t' order r t'' H IH _ Hi];
    intros Hadds Hwf Hn; [done| |].
  - apply adds_only_app in Hadds as [Hadds _].
    specialize (IH Hadds Hwf Hn).
    pose proof (steps_wf _ _ _ _ H Hwf) as Hwf'.
    pose proof (steps_truthy_kept _ _ _ _ _ H Hwf Hn) as Hdata.
    destruct (_add_node parse_dn d t') as [[node|e] t1] eqn:Ha.
    + destruct (add_node_frame_wf _ _ _ is_leaf _ _ Hwf' Ha) as (Hother & _).
      destruct (Hother n) as (_ & -> & _); [|done].
      intros ->.
      destruct (_add_node_Ok _ _ _ _ _ Hwf' Ha)
        as (cs & tl & t2 & _ & _ & _ & Hfalse & _).
      rewrite Hdata in Hfalse. congruence.
    + assert (add_node parse_dn d is_leaf t' = (Raise e, t1)) as Hr.
      { by rewrite add_node_unfold, Ha. }
      destruct (add_node_raise_wf _ _ _ _ _ _ Hwf' Hr) as [-> _].
      by rewrite Hr.
  - destruct (Hadds r). apply elem_of_app. right.
    by apply list_elem_of_singleton.
Qed.

(** X15. An entry inserted when a node on its path already holds a
    truthy payload gets its flag turned off at once, and the first
    [__iter__] leaves it there: afterwards the entry's [toplevel] is
    false and the entry is in no [descendants] set at all - not even that
    of the branch right above it. (Only entries inserted before the
    entries above them are handed to a branch.) *)
Theorem late_entry_never_listed
    evs t d is_leaf n t1 components evs' t2 order out t' :
  history parse_dn evs t → adds_only evs → adds_only evs' →
  truth d = true →
  parse_dn (dn d) = Some components →
  _add_node parse_dn d t = (Ok n, t1) →
  (∃ a, a ∈ trail (normalize components) (top t) t ∧
        py_bool (data (t@a)) = true) →
  steps parse_dn (add_node parse_dn d is_leaf t).2 evs' t2 →
  order ≡ₚ elements (nodes_with_data t2) →
  __iter__ order t2 = Some (Ok out, t') →
  toplevel (t'@n) = false ∧
  ∀ B s, descendants (t'@B) = Some s → n ∉ s.
Proof.
  intros Hh Hadds Hadds' Htruth Hc Ha (a & Hin & Htruthy) Hsteps Hperm Hi.
  pose proof (history_wf _ _ _ Hh) as Hwf.
  pose proof (wf_add_node parse_dn d is_leaf t Hwf) as Hwf1.
  (* the flag is off as soon as the entry is in *)
  assert (toplevel ((add_node parse_dn d is_leaf t).2@n) = false) as Hoff.
  { assert (toplevel (t1@n) = false) as Hoff1.
    { rewrite (_add_node_toplevel _ _ _ _ _ _ Hwf Ha Hc).
      apply not_true_is_false. intros Hall.
      rewrite forallb_forall in Hall.
      specialize (Hall a (proj1 (list_elem_of_In _ _) Hin)).
      by rewrite Htruthy in Hall. }
    rewrite add_node_unfold, Ha. simpl. destruct is_leaf; [done|].
    by rewrite deref_register_branch, update_field. }
  destruct (add_node_Ok parse_dn d is_leaf _ _ _ _ Hwf Ha Hc)
    as (_ & Hd & _).
  (* and stays off while entries are added *)
  assert (toplevel (t2@n) = false) as Hoff2.
  { rewrite (steps_adds_toplevel_kept _ _ _ _ Hsteps Hadds' Hwf1); [done|].
    by rewrite Hd. }
  (* the sets are empty when [__iter__] is called *)
  assert (history parse_dn
            ((evs ++ [Add d is_leaf (_add_node parse_dn d t).1]) ++ evs') t2)
    as Hh2.
  { eapply steps_app; [|done]. by apply steps_add. }
  destruct (history_adds_only _ _ Hh2) as [Hp2 Hempty].
  { apply adds_only_app. split; [|done]. apply adds_only_app.
    split; [done|apply adds_only_Add]. }
  apply __iter___inv in Hi as [(? & _)|[_ [[Hp _]|(e & _ & ?)]]];
    [congruence| |done].
  apply _petrify_inv in Hp as (t3 & Hall & ->).
  destruct (analyze_all_exact _ _ _ _ Hall) as [Ht Hdesc].
  setoid_rewrite deref_set_petrified. split.
  - apply not_true_is_false. intros Hon. apply Ht in Hon as [Hon _].
    congruence.
  - intros B s Hs Hn.
    pose proof (settles_descendants _ _ (settles_analyze_all _ _ _ _ _ Hall) B)
      as Hb.
    destruct (descendants (t2@B)) as [s0|] eqn:Hs0; [|congruence].
    destruct (Hdesc _ _ Hs0) as (s' & Hs' & Hiff).
    assert (s' = s) as -> by congruence.
    destruct (proj1 (Hiff n) Hn) as [Hn0|(_ & Hon & _)]; [|congruence].
    pose proof (Hempty _ _ Hs0) as He. subst s0.
    by apply not_elem_of_empty in Hn0.
Qed.

End Late.

(** ** More sample runs *)

Example directory_nodes :
  elements (nodes_with_data directory) = [2; 3; 1]
  ∧ elements (branches directory) = [2; 1]
  ∧ (toplevel <$> heap directory) = [true; true; false; false].
Proof. vm_compute. done. Qed.

Example directory_petrified_nodes :
  (toplevel <$> heap directory_petrified) = [true; true; false; false]
  ∧ (fmap elements ∘ descendants <$> heap directory_petrified)
    = [None; Some []; Some []; None]
  ∧ petrified directory_petrified = true.
Proof. vm_compute. done. Qed.

Lemma normalize_app_witness :
  normalize ([("cn", "a", "+"); ("uid", "b", ",")] ++ [("dc", "com", "")])
  = normalize [("dc", "com", "")]
    ++ normalize [("cn", "a", "+"); ("uid", "b", ",")].
Proof.
  apply (normalize_app [("cn", "a", "+"); ("uid", "b", ",")]
           [("dc", "com", "")]).
  intros c Hc. injection Hc as <-. simpl. discriminate.
Defined.

Lemma normalize_dangling_witness :
  normalize ([("dc", "example", ","); ("dc", "com", "")] ++ [("cn", "x", "+")])
  = normalize [("dc", "example", ","); ("dc", "com", "")].
Proof.
  apply (normalize_dangling [("dc", "example", ","); ("dc", "com", "")]
           [("cn", "x", "+")]).
  repeat constructor.
Defined.

Lemma normalize_single_valued_witness :
  normalize [("cn", "bob", ","); ("dc", "com", "")]
  = rev ((λ c : component, c.1.1 +:+ "=" +:+ c.1.2)
           <$> [("cn", "bob", ","); ("dc", "com", "")]).
Proof.
  apply (normalize_single_valued [("cn", "bob", ","); ("dc", "com", "")]).
  repeat constructor; simpl; discriminate.
Defined.

Lemma NodeNotEmptyError_carries_name_witness :
  NodeNotEmptyError__init__
    (PyList (normalize [("cn", "bob", ","); ("dc", "com", "")]))
  = Ok (NodeNotEmptyError
          (String.concat ","
             ((λ c : component, c.1.1 +:+ "=" +:+ c.1.2)
                <$> [("cn", "bob", ","); ("dc", "com", "")])))
  ∧ ∀ remaining,
      NodeNotEmptyError__init__ (PyListReverseIterator remaining)
      = Raise TypeError.
Proof.
  apply (NodeNotEmptyError_carries_name
           [("cn", "bob", ","); ("dc", "com", "")]).
  repeat constructor; simpl; discriminate.
Defined.

Lemma add_node_raise_leaves_tree_witness :
  bob_example = bob_example ∧
  (TypeError = TreePetrifiedError ∧ petrified bob_example = true
   ∨ TypeError = LDAPInvalidDnError ∧ petrified bob_example = false
     ∧ plain_parse_dn (dn example_again) = None
   ∨ TypeError = TypeError ∧ petrified bob_example = false ∧
     ∃ components node,
       plain_parse_dn (dn example_again) = Some components ∧
       resolve (normalize components) (top bob_example) bob_example
       = Some node ∧
       py_bool (data (bob_example@node)) = true).
Proof.
  apply (add_node_raise_leaves_tree plain_parse_dn bob_example_events
           bob_example example_again true TypeError bob_example).
  - apply steps_add, steps_add, steps_nil.
  - vm_compute. reflexivity.
Defined.

Lemma add_node_creates_missing_nodes_witness :
  length (heap (add_node plain_parse_dn bob true LdapTree__init__).2)
  + length (trail (normalize [("cn", "bob", ","); ("dc", "example", ",");
                              ("dc", "com", "")])
              (top LdapTree__init__) LdapTree__init__)
  = length (heap LdapTree__init__)
    + length (normalize [("cn", "bob", ","); ("dc", "example", ",");
                         ("dc", "com", "")]).
Proof.
  apply (add_node_creates_missing_nodes plain_parse_dn [] LdapTree__init__
           bob true 3 (_add_node plain_parse_dn bob LdapTree__init__).2).
  - apply steps_nil.
  - vm_compute. reflexivity.
  - reflexivity.
Defined.

Lemma add_node_touches_destination_only_witness :
  (∀ a, a ≠ 2 →
     data (bob_example@a) = data (bob_only@a) ∧
     toplevel (bob_example@a) = toplevel (bob_only@a) ∧
     descendants (bob_example@a) = descendants (bob_only@a) ∧
     (a < length (heap bob_only) →
      parent (bob_example@a) = parent (bob_only@a))) ∧
  nodes_with_data bob_example = {[2]} ∪ nodes_with_data bob_only ∧
  branches bob_example = {[2]} ∪ branches bob_only ∧
  petrified bob_example = petrified bob_only.
Proof.
  apply (add_node_touches_destination_only plain_parse_dn
           ([] ++ [Add bob true (_add_node plain_parse_dn bob LdapTree__init__).1])
           bob_only example false 2 (_add_node plain_parse_dn example bob_only).2).
  - apply steps_add, steps_nil.
  - vm_compute. reflexivity.
Defined.

Lemma history_data_nodes_witness :
  (∀ a, a ∈ nodes_with_data bob_example ↔ data (bob_example@a) ≠ None) ∧
  branches bob_example ⊆ nodes_with_data bob_example.
Proof.
  apply (history_data_nodes plain_parse_dn bob_example_events bob_example).
  apply steps_add, steps_add, steps_nil.
Defined.

Lemma path_length_is_depth_witness :
  ancestor bob_example 3 (length ["dc=com"; "dc=example"; "cn=bob"])
  = Some (top bob_example).
Proof.
  apply (path_length_is_depth plain_parse_dn bob_example_events bob_example
           ["dc=com"; "dc=example"; "cn=bob"] 3).
  - apply steps_add, steps_add, steps_nil.
  - vm_compute. reflexivity.
Defined.

Lemma every_node_has_one_path_witness :
  ∃ names, resolve names (top bob_example) bob_example = Some 3 ∧
           ∀ names', resolve names' (top bob_example) bob_example = Some 3 →
                     names' = names.
Proof.
  apply (every_node_has_one_path plain_parse_dn bob_example_events
           bob_example 3).
  - apply steps_add, steps_add, steps_nil.
  - vm_compute. lia.
Defined.

Lemma inserted_entry_stays_witness :
  resolve (normalize [("dc", "example", ","); ("dc", "com", "")])
    (top bob_example_again) bob_example_again = Some 2 ∧
  data (bob_example_again@2) = Some example ∧
  2 ∈ nodes_with_data bob_example_again.
Proof.
  apply (inserted_entry_stays plain_parse_dn
           ([] ++ [Add bob true (_add_node plain_parse_dn bob LdapTree__init__).1])
           bob_only example false 2
           (_add_node plain_parse_dn example bob_only).2
           [("dc", "example", ","); ("dc", "com", "")]
           ([] ++ [Add example_again true
                     (_add_node plain_parse_dn example_again bob_example).1])
           bob_example_again).
  - apply steps_add, steps_nil.
  - reflexivity.
  - vm_compute. reflexivity.
  - reflexivity.
  - apply steps_add, steps_nil.
Defined.


Lemma iter_returns_iff_root_empty_witness :
  (0 ∉ nodes_with_data bob_example →
   ∃ t', __iter__ (elements (nodes_with_data bob_example)) bob_example
         = Some (Ok (branches bob_example), t') ∧
         petrified t' = true) ∧
  (0 ∈ nodes_with_data bob_example →
   ∃ t', __iter__ (elements (nodes_with_data bob_example)) bob_example
         = Some (Raise AttributeError, t') ∧
         petrified t' = false ∧
         nodes_with_data t' = nodes_with_data bob_example).
Proof.
  apply (iter_returns_iff_root_empty plain_parse_dn bob_example_events
           bob_example (elements (nodes_with_data bob_example))).
  - apply steps_add, steps_add, steps_nil.
  - reflexivity.
Defined.

Lemma petrify_order_irrelevant_witness :
  _petrify [3; 2] bob_example = Some (Ok (), bob_example_petrified).
Proof.
  apply (petrify_order_irrelevant plain_parse_dn bob_example_events
           bob_example (elements (nodes_with_data bob_example)) [3; 2]
           bob_example_petrified).
  - apply steps_add, steps_add, steps_nil.
  - reflexivity.
  - vm_compute. apply perm_swap.
  - vm_compute. reflexivity.
Defined.

Lemma late_entry_never_listed_witness :
  toplevel (directory_petrified@2) = false ∧
  ∀ B s, descendants (directory_petrified@B) = Some s → 2 ∉ s.
Proof.
  apply (late_entry_never_listed plain_parse_dn
           ([] ++ [Add dir_com false
                     (_add_node plain_parse_dn dir_com LdapTree__init__).1])
           directory_com dir_example false 2
           (_add_node plain_parse_dn dir_example directory_com).2
           [("dc", "example", ","); ("dc", "com", "")]
           ([] ++ [Add dir_alice true
                     (_add_node plain_parse_dn dir_alice directory_example).1])
           directory (elements (nodes_with_data directory))
           (branches directory_petrified) directory_petrified).
  - apply steps_add, steps_nil.
  - apply adds_only_app. split; [intros r Hr; by apply elem_of_nil in Hr|].
    apply adds_only_Add.
  - apply adds_only_app. split; [intros r Hr; by apply elem_of_nil in Hr|].
    apply adds_only_Add.
  - reflexivity.
  - reflexivity.
  - vm_compute. reflexivity.
  - exists 1. split; vm_compute; [|reflexivity]. apply list_elem_of_here.
  - apply steps_add, steps_nil.
  - reflexivity.
  - vm_compute. reflexivity.
Defined.

(** ** Running the pass again *)

Lemma settles_eq t a1 a2 :
  settles t a1 → settles t a2 →
  (∀ a, toplevel (a1@a) = toplevel (a2@a)) →
  (∀ a, descendants (a1@a) = descendants (a2@a)) →
  a1 = a2.
Proof.
  intros S1 S2 Ht Hd. apply LdapTree_eq.
  - apply heap_eq.
    { by rewrite (settles_length _ _ S1), (settles_length _ _ S2). }
    intros a. apply LdapNode_eq; [| |done| |done].
    + by rewrite (settles_parent _ _ S1), (settles_parent _ _ S2).
    + by rewrite (settles_children _ _ S1), (settles_children _ _ S2).
    + by rewrite (settles_data _ _ S1), (settles_data _ _ S2).
  - by rewrite (settles_top _ _ S1), (settles_top _ _ S2).
  - by rewrite (settles_data_set _ _ S1), (settles_data_set _ _ S2).
  - by rewrite (settles_branches _ _ S1), (settles_branches _ _ S2).
  - by rewrite (settles_petrified _ _ S1), (settles_petrified _ _ S2).
Qed.

(** A pass over what a pass has left finds nothing to do. *)
Lemma analyze_all_again fuel order fuel' order' t t1 t2 :
  (∀ n, n ∈ order' → n ∈ order) →
  analyze_all fuel order t = Some (Ok (), t1) →
  analyze_all fuel' order' t1 = Some (Ok (), t2) →
  t2 = t1.
Proof.
  intros Hsub H1 H2.
  pose proof (settles_analyze_all _ _ _ _ _ H1) as S1.
  pose proof (settles_analyze_all _ _ _ _ _ H2) as S2.
  destruct (analyze_all_exact _ _ _ _ H1) as [T1 D1].
  destruct (analyze_all_exact _ _ _ _ H2) as [T2 D2].
  assert (Hnone : ∀ n, n ∈ order' → toplevel (t1@n) = true →
                       ¬ ∃ B, nearest t1 n B).
  { intros n Hin Hon [B HB]. apply T1 in Hon as [_ Hno]. apply Hno.
    split; [auto|]. exists B. by apply (nearest_settles _ _ _ _ S1). }
  apply (settles_eq t1); [done|apply settles_refl| |].
  - intros a. specialize (T2 a).
    destruct (toplevel (t2@a)) eqn:E2, (toplevel (t1@a)) eqn:E1; try done.
    + by destruct (proj1 T2 eq_refl).
    + apply T2. split; [done|]. intros [Hin Hex].
      by apply (Hnone a).
  - intros a. pose proof (settles_descendants _ _ S2 a) as E.
    destruct (descendants (t1@a)) as [s|] eqn:Hs; [|done].
    destruct (D2 _ _ Hs) as (s' & -> & Hiff). f_equal. apply set_eq.
    intros n. rewrite Hiff. split; [|auto].
    intros [?|(Hin & Hon & HB)]; [done|]. destruct (Hnone n Hin Hon). eauto.
Qed.

(** The flag [petrified] is not looked at by the pass. *)
Lemma walk_set_petrified n u f : ∀ p w,
  walk f n p (set_petrified u) = Some w →
  ∃ v, walk f n p u = Some (w.1, v) ∧ w.2 = set_petrified v.
Proof.
  induction f as [|f IHf]; intros p w Hw; [done|].
  cbn [walk] in *. change (top (set_petrified u)) with (top u) in Hw.
  case_decide; [injection Hw as <-; by eexists|].
  destruct p as [p|]; [|injection Hw as <-; by eexists].
  rewrite deref_set_petrified in Hw.
  destruct (py_bool (data (u@p)) && bool_decide (descendants (u@p) ≠ None)).
  - injection Hw as <-. by eexists.
  - by apply IHf.
Qed.

Lemma analyze_all_set_petrified fuel l : ∀ u r u',
  analyze_all fuel l (set_petrified u) = Some (r, u') →
  ∃ v, analyze_all fuel l u = Some (r, v) ∧ u' = set_petrified v.
Proof.
  induction l as [|n l IH]; intros u r u' H.
  { simpl in H. injection H as <- <-. by eexists. }
  simpl in H. simpl. unfold analyze in *.
  rewrite deref_set_petrified in H.
  destruct (toplevel (u@n)); [|by apply IH].
  destruct (walk fuel n (parent (u@n)) (set_petrified u))
    as [[r1 w1]|] eqn:Hw; [|done].
  destruct (walk_set_petrified _ _ _ _ _ Hw) as (v & -> & Hv).
  simpl in *. subst w1.
  destruct r1 as [[]|e]; [by apply IH|].
  injection H as <- <-. by eexists.
Qed.

Section Again.

Variable parse_dn : string → option (list component).

(** X16. The pass itself is idempotent: run again on the tree it has
    left, in whatever order, [_petrify] returns and changes nothing. *)
Theorem petrify_again_changes_nothing evs t order t1 order' :
  history parse_dn evs t →
  order ≡ₚ elements (nodes_with_data t) →
  _petrify order t = Some (Ok (), t1) →
  order' ≡ₚ elements (nodes_with_data t1) →
  _petrify order' t1 = Some (Ok (), t1).
Proof.
  intros Hh Hperm H1 Hperm'. pose proof (history_wf _ _ _ Hh) as Hwf.
  pose proof (wf__petrify _ _ _ _ Hwf H1) as Hwf1.
  apply _petrify_inv in H1 as (a1 & A1 & ->).
  pose proof (settles_analyze_all _ _ _ _ _ A1) as S1.
  assert (Hroot : 0 ∉ nodes_with_data t).
  { intros Hroot.
    destruct (analyze_all_root_raises (length (heap t)) order t)
      as [t' Hr]; [done|by eapply history_root_toplevel| | |done|congruence].
    - rewrite Hperm. by apply elem_of_elements.
    - intros n Hn. rewrite Hperm in Hn. apply elem_of_elements in Hn.
      by apply (wf_data _ Hwf). }
  destruct (_petrify_total order' (set_petrified a1) Hwf1 Hperm') as [t2 H2].
  { simpl. by rewrite (settles_data_set _ _ S1). }
  rewrite H2. do 2 f_equal.
  apply _petrify_inv in H2 as (a2 & A2 & ->).
  destruct (analyze_all_set_petrified _ _ _ _ _ A2) as (v & Av & ->).
  assert (v = a1) as ->; [|done].
  eapply analyze_all_again; [|exact A1|exact Av].
  intros n Hn. rewrite Hperm' in Hn. rewrite Hperm.
  apply elem_of_elements in Hn. apply elem_of_elements.
  simpl in Hn. by rewrite (settles_data_set _ _ S1) in Hn.
Qed.

End Again.

Lemma petrify_again_changes_nothing_witness :
  _petrify [3; 2] bob_example_petrified = Some (Ok (), bob_example_petrified).
Proof.
  apply (petrify_again_changes_nothing plain_parse_dn bob_example_events
           bob_example (elements (nodes_with_data bob_example))
           bob_example_petrified [3; 2]).
  - apply steps_add, steps_add, steps_nil.
  - reflexivity.
  - vm_compute. reflexivity.
  - vm_compute. apply perm_swap.
Defined.

(** ** The pass on the trees the module builds *)

(** A list of components whose last one closes a level gives a path that
    is not empty. *)
Lemma _dn_to_path_loop_nonempty components c :
  last components = Some c → c.2 ≠ "+" →
  ∀ path rdn, _dn_to_path_loop components path rdn ≠ [].
Proof.
  intros Hlast Hc.
  induction components as [|c0 rest IH]; intros path rdn; [done|].
  destruct rest as [|c1 rest].
  - injection Hlast as ->. simpl. rewrite decide_True by done. simpl.
    by destruct path.
  - rewrite last_cons_cons in Hlast. specialize (IH Hlast).
    cbn [_dn_to_path_loop]. cbv zeta. case_decide; apply IH.
Qed.

Lemma normalize_closed components c :
  last components = Some c → c.2 ≠ "+" → normalize components ≠ [].
Proof.
  intros Hlast Hc Hnil. unfold normalize in Hnil.
  apply (_dn_to_path_loop_nonempty _ _ Hlast Hc [] []).
  rewrite <- (rev_involutive (_dn_to_path_loop components [] [])).
  by rewrite Hnil.
Qed.

(** [plain_parse_dn] keeps to what the module relies on. *)
Lemma plain_components_last s : ∀ key value in_value components,
  plain_components s key value in_value = Some components →
  ∃ c, last components = Some c ∧ c.2 = "".
Proof.
  induction s as [|ch s IH]; intros key value in_value components H.
  - simpl in H. destruct in_value; [|done]. injection H as <-. by eexists.
  - cbn [plain_components] in H.
    destruct (beyond_plain ch); [done|]. destruct in_value.
    + case_bool_decide.
      * destruct (plain_components s "" "" false) as [rest|] eqn:Hrest;
          [|done].
        injection H as <-. destruct (IH _ _ _ _ Hrest) as (c & Hc & Hsep).
        exists c. split; [|done]. rewrite last_cons. by rewrite Hc.
      * by eapply IH.
    + case_bool_decide; [case_bool_decide; [done|by eapply IH]|].
      case_bool_decide; [done|by eapply IH].
Qed.

Lemma plain_parse_dn_closes : closes_last_level plain_parse_dn.
Proof.
  intros s components H.
  destruct (plain_components_last _ _ _ _ _ H) as (c & Hc & Hsep).
  exists c. split; [done|]. by rewrite Hsep.
Qed.

(** Steps up add up. *)
Lemma ancestor_add t n k : ∀ j,
  ancestor t n (k + j) = ancestor t n k ≫= λ a, ancestor t a j.
Proof.
  induction j as [|j IH].
  - rewrite Nat.add_0_r. by destruct (ancestor t n k).
  - rewrite Nat.add_succ_r. cbn [ancestor]. rewrite IH.
    by destruct (ancestor t n k).
Qed.

Lemma ancestor_between t n d b k :
  ancestor t n d = Some b → k ≤ d →
  ∃ a, ancestor t n k = Some a ∧ ancestor t a (d - k) = Some b.
Proof.
  intros Hd Hk. replace d with (k + (d - k)) in Hd by lia.
  rewrite ancestor_add in Hd.
  destruct (ancestor t n k) as [a|]; [|done]. by exists a.
Qed.

(** A walk that is [k] steps up from a node [d] steps away from the root
    is over within [d - k + 1] turns, and has not tripped over [None]. *)
Lemma walk_within_depth fuel : ∀ t node d k,
  ancestor t node d = Some (top t) → k ≤ d → d - k < fuel →
  ∃ t', walk fuel node (ancestor t node k) t = Some (Ok (), t').
Proof.
  induction fuel as [|fuel IH]; intros t node d k Hd Hk Hf; [lia|].
  cbn [walk]. case_decide as Htop; [eauto|].
  destruct (ancestor_between _ _ _ _ _ Hd Hk) as (p & Hp & _).
  assert (k ≠ d) by (intros ->; congruence).
  rewrite Hp.
  destruct (py_bool (data (t@p)) && bool_decide (descendants (t@p) ≠ None));
    [eauto|].
  replace (parent_of t p) with (ancestor t node (S k))
    by (simpl; by rewrite Hp).
  apply (IH t node d (S k)); [done|lia..].
Qed.

Section Reachable.

Variable parse_dn : string → option (list component).

Hypothesis parse_dn_closes : closes_last_level parse_dn.

(** No call puts an entry on the root: the path of an accepted name is
    not empty, and only the empty path ends on the root. *)
Lemma history_root_empty evs t :
  history parse_dn evs t → 0 ∉ nodes_with_data t.
Proof.
  unfold history. intros H. remember LdapTree__init__ as t0 eqn:Ht0.
  induction H as [|t0 evs t' d is_leaf H IH|t0 evs t' order r t'' H IH _ Hi].
  - subst. simpl. apply not_elem_of_empty.
  - specialize (IH Ht0). subst t0.
    pose proof (history_wf _ _ _ H) as Hwf.
    destruct (_add_node parse_dn d t') as [[node|e] t1] eqn:Ha.
    + destruct (add_node_frame_wf _ _ _ is_leaf _ _ Hwf Ha)
        as (_ & -> & _).
      intros [Hroot|Hroot]%elem_of_union; [|done].
      apply elem_of_singleton in Hroot. subst node.
      destruct (_add_node_Ok _ _ _ _ _ Hwf Ha)
        as (cs & tl & t2 & Hc & _ & _ & _ & _ & _ & Hr & _ & _).
      assert (wf t1) as Hw1.
      { pose proof (wf__add_node parse_dn d t' Hwf) as [Hw _].
        by rewrite Ha in Hw. }
      assert (normalize cs = []) as Hnil.
      { apply (resolve_root t1); [done| |by rewrite (wf_top _ Hw1) in Hr].
        pose proof (linked_add_node parse_dn d true t' Hwf
                      (history_linked _ _ _ H)) as Hl.
        by rewrite add_node_unfold, Ha in Hl. }
      destruct (parse_dn_closes _ _ Hc) as (c & Hlast & Hsep).
      by apply (normalize_closed _ _ Hlast Hsep).
    + assert (add_node parse_dn d is_leaf t' = (Raise e, t1)) as Hadd.
      { by rewrite add_node_unfold, Ha. }
      destruct (add_node_raise_wf _ _ _ _ _ _ Hwf Hadd) as [-> _].
      by rewrite Hadd.
  - specialize (IH Ht0). subst t0.
    apply __iter___settles in Hi as (t1 & Hs & [->| ->]); simpl;
      by rewrite (settles_data_set _ _ Hs).
Qed.

(** C8. On every tree the calls of the module have built, with a
    [parse_dn] that closes the last level of the names it accepts,
    [_petrify] returns: it does not raise and it does not run on, in
    whatever order it visits [__nodes_with_data], and [__iter__] returns
    with it. Every node of [__nodes_with_data] is some [d] steps away from
    the root, [d] at least one; [k] steps up the walk is [d - k] steps
    away; and on the store as the pass finds it the walk of the node is
    over within [d] turns, either at the root with no branch found and
    the store as it was, or at the nearest branch with a truthy payload,
    which takes the node in. *)
Theorem petrify_returns_on_every_history evs t order :
  history parse_dn evs t →
  order ≡ₚ elements (nodes_with_data t) →
  (∃ t', _petrify order t = Some (Ok (), t') ∧ petrified t' = true) ∧
  (∃ t', __iter__ order t = Some (Ok (branches t), t')) ∧
  ∀ n, n ∈ nodes_with_data t →
    ∃ d, 1 ≤ d ∧ ancestor t n d = Some (top t) ∧
      (∀ k, k ≤ d →
         ∃ a, ancestor t n k = Some a ∧
              ancestor t a (d - k) = Some (top t)) ∧
      ∀ t1 fuel, settles t t1 → d ≤ fuel →
        ∃ t2, walk fuel n (parent (t1@n)) t1 = Some (Ok (), t2) ∧
              (t2 = t1 ∧ no_qualifying_ancestor t1 n
               ∨ ∃ B, nearest t1 n B ∧ t2 = adopted B n t1).
Proof.
  intros Hh Hperm.
  pose proof (history_wf _ _ _ Hh) as Hwf.
  pose proof (history_linked _ _ _ Hh) as Hl.
  pose proof (history_root_empty _ _ Hh) as Hroot.
  destruct (_petrify_total order t Hwf Hperm Hroot) as [t' Ht'].
  split; [|split].
  - exists t'. split; [done|].
    apply _petrify_inv in Ht' as (t1 & _ & ->). done.
  - unfold __iter__. destruct (petrified t) eqn:Hp; simpl; [eauto|].
    rewrite Ht'. exists t'.
    apply _petrify_inv in Ht' as (t1 & Ha & ->). simpl.
    by rewrite (settles_branches _ _ (settles_analyze_all _ _ _ _ _ Ha)).
  - intros n Hn.
    destruct (resolve_exists t n Hwf Hl (wf_data _ Hwf _ Hn))
      as [names Hnames].
    pose proof (resolve_ancestor _ _ _ _ Hl Hnames) as Hd.
    rewrite <- (wf_top _ Hwf) in Hd.
    exists (length names). split; [|split; [done|split]].
    + destruct names as [|name names]; [|simpl; lia].
      injection Hnames as <-. done.
    + intros k Hk. by apply ancestor_between.
    + intros t1 fuel Hs Hfuel.
      assert (ancestor t1 n (length names) = Some (top t1)) as Hd1.
      { by rewrite (ancestor_settles _ _ _ _ Hs), (settles_top _ _ Hs). }
      assert (1 ≤ length names) as Hpos.
      { destruct names as [|name names]; [|simpl; lia].
        injection Hnames as <-. done. }
      destruct (walk_within_depth fuel t1 n (length names) 1 Hd1 Hpos)
        as [t2 Hw]; [lia|].
      change (ancestor t1 n 1) with (parent (t1@n)) in Hw.
      exists t2. split; [done|].
      change (parent (t1@n)) with (ancestor t1 n 1) in Hw.
      apply walk_spec in Hw as [(_ & -> & Hno)|[[? _]|(_ & B & HB & ->)]];
        [by left|done|right; by exists B|lia|intros j Hj; lia].
Qed.

End Reachable.

Lemma petrify_returns_on_every_history_witness :
  (∃ t', _petrify (elements (nodes_with_data bob_example)) bob_example
         = Some (Ok (), t') ∧ petrified t' = true) ∧
  (∃ t', __iter__ (elements (nodes_with_data bob_example)) bob_example
         = Some (Ok (branches bob_example), t')) ∧
  ∀ n, n ∈ nodes_with_data bob_example →
    ∃ d, 1 ≤ d ∧ ancestor bob_example n d = Some (top bob_example) ∧
      (∀ k, k ≤ d →
         ∃ a, ancestor bob_example n k = Some a ∧
              ancestor bob_example a (d - k) = Some (top bob_example)) ∧
      ∀ t1 fuel, settles bob_example t1 → d ≤ fuel →
        ∃ t2, walk fuel n (parent (t1@n)) t1 = Some (Ok (), t2) ∧
              (t2 = t1 ∧ no_qualifying_ancestor t1 n
               ∨ ∃ B, nearest t1 n B ∧ t2 = adopted B n t1).
Proof.
  apply (petrify_returns_on_every_history plain_parse_dn
           plain_parse_dn_closes bob_example_events bob_example
           (elements (nodes_with_data bob_example))).
  - apply steps_add, steps_add, steps_nil.
  - reflexivity.
Defined.
